(** * gmsh2VTU: conversion of a 2-D gmsh mesh into a VTK unstructured grid

    Shallow embedding of [docs/workspace/utils.py], function [gmsh2VTU],
    and the properties of its three stages: node indexing, cell assembly
    and region projection.

    Modelling conventions.
    - Python integers are [Z]; positions produced by [range] and
      [enumerate] are [nat].
    - Python floats are modelled by the rationals they denote, as canonical
      rationals [Qc], so that equality of floats is Leibniz equality.  The
      two float operations of the source, one division and one subtraction
      per region value, round their exact result; the rounding is a
      parameter ([FloatArith]) of which only monotonicity and the exact
      representation of 0 and 1 are used.  Arithmetic without rounding
      ([exactArith]) is one instance.
    - The VTK objects are modelled by the values the function hands to
      them, in order; how VTK stores them is outside the source.
    - Python dictionaries are [gmap]s; lists are lists.
    - A raised exception is a value of [exn]; code that may raise lives in
      the [result] monad, and an exception aborts everything after it.
    - The gmsh model is a read-only snapshot answering the five queries the
      function performs.  The [print] call has no effect on the result and
      is left out. *)

From Stdlib Require Import ZArith QArith Qcanon Ascii.
From stdpp Require Import gmap list strings pretty.

(** ** Exceptions and the result monad *)

Inductive exn : Type :=
  | IndexError            (* sequence index out of range *)
  | KeyError (k : Z)      (* dictionary key not present *)
  | ValueError.           (* min() / max() of an empty sequence *)

Inductive result (A : Type) : Type :=
  | Ok (a : A)
  | Raise (e : exn).
Arguments Ok {A} a.
Arguments Raise {A} e.

#[global] Instance result_ret : MRet result := λ A a, Ok a.
#[global] Instance result_bind : MBind result := λ A B f r,
  match r with Ok a => f a | Raise e => Raise e end.

(** [for x in l: s = f(s, x)], where the body may raise. *)
Fixpoint foldM {A S : Type} (f : S → A → result S) (s : S) (l : list A)
  : result S :=
  match l with
  | [] => Ok s
  | x :: l' => s' ← f s x; foldM f s' l'
  end.

(** ** Python primitives *)

(** [l[i]] for a non-negative index. *)
Definition py_index {A : Type} (l : list A) (i : nat) : result A :=
  match l !! i with
  | Some x => Ok x
  | None => Raise IndexError
  end.

(** [d[k]] on a dictionary with integer keys. *)
Definition py_getitem {V : Type} (d : gmap Z V) (k : Z) : result V :=
  match d !! k with
  | Some v => Ok v
  | None => Raise (KeyError k)
  end.

(** [l[a:b]] for [0 <= a <= b]: slicing clamps and never raises. *)
Definition py_slice {A : Type} (l : list A) (a b : nat) : list A :=
  take (b - a) (drop a l).

Fixpoint enumerate_from {A : Type} (n : nat) (l : list A) : list (nat * A) :=
  match l with
  | [] => []
  | x :: l' => (n, x) :: enumerate_from (S n) l'
  end.

(** [enumerate(l)] *)
Definition enumerate {A : Type} (l : list A) : list (nat * A) :=
  enumerate_from 0 l.

(** [min(l)] and [max(l)] *)
Definition py_min (l : list Z) : result Z :=
  match l with
  | [] => Raise ValueError
  | x :: l' => Ok (foldl Z.min x l')
  end.

Definition py_max (l : list Z) : result Z :=
  match l with
  | [] => Raise ValueError
  | x :: l' => Ok (foldl Z.max x l')
  end.

(** ** Float arithmetic *)

(** The rounding applied by every float operation.  It is monotone and
    leaves 0 and 1, which are representable, unchanged. *)
Class FloatArith : Type := {
  round : Qc → Qc;
  round_mono : ∀ x y : Qc, (x ≤ y)%Qc → (round x ≤ round y)%Qc;
  round_0 : round 0%Qc = 0%Qc;
  round_1 : round 1%Qc = 1%Qc
}.

(** [a / b] on integers: the float nearest to the quotient. *)
Definition true_div {FA : FloatArith} (a b : Z) : Qc :=
  round (Qc_of_Z a / Qc_of_Z b)%Qc.

(** [x - y] on floats. *)
Definition float_sub {FA : FloatArith} (x y : Qc) : Qc :=
  round (x - y)%Qc.

(** Arithmetic that never rounds. *)
Definition exactArith : FloatArith := {|
  round := λ x, x;
  round_mono := λ x y Hxy, Hxy;
  round_0 := eq_refl;
  round_1 := eq_refl
|}.

(** ** The gmsh model, as queried by the conversion *)

(** What [mesh.getElements] returns: element types, and per type the
    element tags and the flattened node tags. *)
Definition elements : Type := list Z * list (list Z) * list (list Z).

Record gmshModel : Type := {
  (* mesh.getNodes() : node tags, flat coordinates, parametric coordinates *)
  getNodes : list Z * list Qc * list Qc;
  (* mesh.getElements(dim) *)
  getElements : Z → elements;
  (* mesh.getElements(dim, tag) *)
  getElementsOfEntity : Z → Z → elements;
  (* getPhysicalGroups(dim) : (dim, tag) pairs *)
  getPhysicalGroups : Z → list (Z * Z);
  (* getEntitiesForPhysicalGroup(dim, tag) *)
  getEntitiesForPhysicalGroup : Z → Z → list Z
}.

(** ** The VTK objects the conversion builds *)

Inductive cellType : Type := VTK_TRIANGLE | VTK_QUAD.

Record vtkUnstructuredGrid : Type := {
  Points : list (Qc * Qc * Qc);
  Cells : list (cellType * list nat);
  CellData : list (string * list Qc)
}.

(** [GetPointIds().SetId(j, id)] and [vtkFloatArray.SetValue(i, v)] write
    one slot of an array that is already allocated. *)
Definition SetId (ids : list nat) (j id : nat) : list nat := <[j := id]> ids.
Definition SetValue (arr : list Qc) (i : nat) (v : Qc) : list Qc := <[i := v]> arr.

(** [SetNumberOfTuples(n)] with one component: [n] slots, contents not yet
    meaningful. *)
Definition SetNumberOfTuples (n : nat) : list Qc := replicate n 0%Qc.

(** ** The stages of [gmsh2VTU] *)

(** [{nodeTag: idx for idx, nodeTag in enumerate(nodeTags)}]: entries are
    inserted in list order, a later duplicate replaces an earlier one. *)
Definition nodeTagToIndex_from (d : gmap Z nat) (n : nat) (nodeTags : list Z)
  : gmap Z nat :=
  foldl (λ d '(idx, nodeTag), <[nodeTag := idx]> d) d (enumerate_from n nodeTags).

Definition nodeTagToIndex (nodeTags : list Z) : gmap Z nat :=
  nodeTagToIndex_from ∅ 0 nodeTags.

(** [[nodeTagToIndex[nodeTag] for nodeTag in elemNodeTags]] *)
Fixpoint orderedElemNodeTags (idx : gmap Z nat) (elemNodeTags : list Z)
  : result (list nat) :=
  match elemNodeTags with
  | [] => Ok []
  | nodeTag :: rest =>
      i ← py_getitem idx nodeTag;
      rest' ← orderedElemNodeTags idx rest;
      Ok (i :: rest')
  end.

(** The loop filling [vtk_points]; [InsertNextPoint] appends. *)
Definition InsertNextPoint (coords : list Qc) (pts : list (Qc * Qc * Qc)) (i : nat)
  : result (list (Qc * Qc * Qc)) :=
  x ← py_index coords (3 * i);
  y ← py_index coords (3 * i + 1);
  z ← py_index coords (3 * i + 2);
  Ok (pts ++ [(x, y, z)]).

Definition vtk_points (nodeTags : list Z) (coords : list Qc)
  : result (list (Qc * Qc * Qc)) :=
  foldM (InsertNextPoint coords) [] (seq 0 (length nodeTags)).

(** The three nested loops filling [physicalGroupMap]. *)
Definition assignElements (tag : Z) (pgm : gmap Z Z) (elementTags0 : list Z)
  : gmap Z Z :=
  foldl (λ pgm elemTag, <[elemTag := tag]> pgm) pgm elementTags0.

Definition assignEntity (m : gmshModel) (dim tag : Z) (pgm : gmap Z Z) (elemTag : Z)
  : result (gmap Z Z) :=
  let '(_, elementTags, _) := getElementsOfEntity m dim elemTag in
  elementTags0 ← py_index elementTags 0;
  Ok (assignElements tag pgm elementTags0).

Definition assignGroup (m : gmshModel) (pgm : gmap Z Z) (group : Z * Z)
  : result (gmap Z Z) :=
  let '(dim, tag) := group in
  let elementaryTags := getEntitiesForPhysicalGroup m dim tag in
  foldM (assignEntity m dim tag) pgm elementaryTags.

Definition physicalGroupMap (m : gmshModel) : result (gmap Z Z) :=
  let physicalGroups := getPhysicalGroups m 2%Z in
  foldM (assignGroup m) ∅ physicalGroups.

(** One cell: [n] point ids read from [nodes] into a fresh id list. *)
Definition cellPointIds (n : nat) (nodes : list nat) : result (list nat) :=
  foldM (λ ids j, node_id ← py_index nodes j; Ok (SetId ids j node_id))
        (replicate n 0) (seq 0 n).

(** The branch on [elemType] inside the main loop; [InsertNextCell]
    appends.  There is no [else]. *)
Definition insertCell (elemType : Z) (ordered : list nat)
    (cells : list (cellType * list nat)) (i : nat)
  : result (list (cellType * list nat)) :=
  if decide (elemType = 3%Z) then
    let nodes := py_slice ordered (4 * i) (4 * (i + 1)) in
    ids ← cellPointIds 4 nodes;
    Ok (cells ++ [(VTK_QUAD, ids)])
  else if decide (elemType = 2%Z) then
    let nodes := py_slice ordered (3 * i) (3 * (i + 1)) in
    ids ← cellPointIds 3 nodes;
    Ok (cells ++ [(VTK_TRIANGLE, ids)])
  else Ok cells.

(** The body of [for i in range(len(elemTags))], on the pair
    (cells of the grid, [regionValues]). *)
Definition loopBody (elemType : Z) (elemTags : list Z) (ordered : list nat)
    (pgm : gmap Z Z) (st : list (cellType * list nat) * list Z) (i : nat)
  : result (list (cellType * list nat) * list Z) :=
  let '(cells, regionValues) := st in
  cells' ← insertCell elemType ordered cells i;
  elemTag ← py_index elemTags i;
  let region := default (-1)%Z (pgm !! elemTag) in
  Ok (cells', regionValues ++ [region]).

Definition mainLoop (elemType : Z) (elemTags : list Z) (ordered : list nat)
    (pgm : gmap Z Z) : result (list (cellType * list nat) * list Z) :=
  foldM (loopBody elemType elemTags ordered pgm) ([], []) (seq 0 (length elemTags)).

(** The normalisation of one region value,
    [1 - (region - min_region) / (max_region - min_region)]: a true division
    of integers, then a float subtraction from 1. *)
Definition normalize {FA : FloatArith} (min_region max_region region : Z) : Qc :=
  float_sub 1%Qc (true_div (region - min_region) (max_region - min_region)).

Definition normalizedRegions {FA : FloatArith} (regionValues : list Z)
  : result (list Qc) :=
  min_region ← py_min regionValues;
  max_region ← py_max regionValues;
  if decide (min_region = max_region) then
    Ok (replicate (length regionValues) 1%Qc)
  else
    Ok (normalize min_region max_region <$> regionValues).

(** [for i, normalizedRegion in enumerate(normalizedRegions):
       regionArray.SetValue(i, normalizedRegion)] *)
Definition regionArray (n : nat) (normalized : list Qc) : list Qc :=
  foldl (λ arr '(i, v), SetValue arr i v) (SetNumberOfTuples n) (enumerate normalized).

(** ** The conversion *)

Definition gmsh2VTU {FA : FloatArith} (gmshModel : gmshModel)
  : result vtkUnstructuredGrid :=
  let '(nodeTags, coords, _) := getNodes gmshModel in
  let '(types, tags, nodes) := getElements gmshModel 2%Z in
  elemType ← py_index types 0;
  elemTags ← py_index tags 0;
  elemNodeTags ← py_index nodes 0;
  let nodeTagToIndex := nodeTagToIndex nodeTags in
  orderedElemNodeTags ← orderedElemNodeTags nodeTagToIndex elemNodeTags;
  vtk_points ← vtk_points nodeTags coords;
  physicalGroupMap ← physicalGroupMap gmshModel;
  '(cells, regionValues) ← mainLoop elemType elemTags orderedElemNodeTags physicalGroupMap;
  normalizedRegions ← normalizedRegions regionValues;
  let regionArray := regionArray (length elemTags) normalizedRegions in
  Ok {| Points := vtk_points; Cells := cells; CellData := [("Region"%string, regionArray)] |}.

(** ** Notions used to state the properties *)

(** Element [e] is reachable from a physical group, the way the conversion
    walks the mesh: some entity of the group lists [e] in the first
    per-type block of its elements. *)
Definition ownsElement (m : gmshModel) (dim : Z) (ent : Z) (e : Z) : Prop :=
  ∃ blk, (getElementsOfEntity m dim ent).1.2 !! 0 = Some blk ∧ e ∈ blk.

Definition reachable (m : gmshModel) (group : Z * Z) (e : Z) : Prop :=
  ∃ ent, ent ∈ getEntitiesForPhysicalGroup m group.1 group.2
         ∧ ownsElement m group.1 ent e.

#[global] Instance ownsElement_dec m dim ent e : Decision (ownsElement m dim ent e).
Proof.
  unfold ownsElement. destruct ((getElementsOfEntity m dim ent).1.2 !! 0) as [blk|].
  - destruct (decide (e ∈ blk)) as [Hin|Hnin].
    + left. by exists blk.
    + right. intros (blk' & [= <-] & Hin). done.
  - right. intros (blk' & [=] & _).
Defined.

#[global] Instance reachable_dec m group e : Decision (reachable m group e).
Proof.
  unfold reachable.
  destruct (decide (Exists (λ ent, ownsElement m group.1 ent e)
                           (getEntitiesForPhysicalGroup m group.1 group.2)))
    as [Hex|Hno].
  - left. by apply Exists_exists in Hex.
  - right. intros Hex. apply Hno. by apply Exists_exists.
Defined.

(** The raw region value of an element: its entry in the region map, or
    the sentinel [-1]. *)
Definition rawRegion (pgm : gmap Z Z) (elemTag : Z) : Z :=
  default (-1)%Z (pgm !! elemTag).

(** ** Example meshes *)

Definition noElements : elements := ([], [], []).

(** Corners of the unit square, nodes 10 11 12 13, and a fifth node 14
    below its lower edge. *)
Definition squareCoords : list Qc := [0; 0; 0;  1; 0; 0;  1; 1; 0;  0; 1; 0]%Qc.
Definition fiveCoords : list Qc := (squareCoords ++ [1; -1; 0])%Qc.

(** One quadrilateral (element 1 on surface 1, nodes 10 11 12 13, physical
    group 5) and one triangle (element 2 on surface 2, nodes 10 11 14,
    physical group 2).  [quadFirst] chooses which per-type block
    [getElements(2)] lists first. *)
Definition mixedMesh (quadFirst : bool) : gmshModel := {|
  getNodes := ([10; 11; 12; 13; 14]%Z, fiveCoords, []);
  getElements := λ dim,
    if quadFirst
    then ([3; 2]%Z, [[1%Z]; [2%Z]], [[10; 11; 12; 13]%Z; [10; 11; 14]%Z])
    else ([2; 3]%Z, [[2%Z]; [1%Z]], [[10; 11; 14]%Z; [10; 11; 12; 13]%Z]);
  getElementsOfEntity := λ dim ent,
    if decide (ent = 1%Z) then ([3%Z], [[1%Z]], [[10; 11; 12; 13]%Z])
    else if decide (ent = 2%Z) then ([2%Z], [[2%Z]], [[10; 11; 14]%Z])
    else noElements;
  getPhysicalGroups := λ dim, [(2, 2); (2, 5)]%Z;
  getEntitiesForPhysicalGroup := λ dim tag,
    if decide (tag = 5%Z) then [1%Z]
    else if decide (tag = 2%Z) then [2%Z]
    else []
|}.

(** A single second-order (six-node) triangle, gmsh element type 9, in
    physical group 1. *)
Definition secondOrderMesh : gmshModel := {|
  getNodes := ([1; 2; 3; 4; 5; 6]%Z,
               [0; 0; 0;  2; 0; 0;  0; 2; 0;  1; 0; 0;  1; 1; 0;  0; 1; 0]%Qc, []);
  getElements := λ dim, ([9%Z], [[1%Z]], [[1; 2; 3; 4; 5; 6]%Z]);
  getElementsOfEntity := λ dim ent, ([9%Z], [[1%Z]], [[1; 2; 3; 4; 5; 6]%Z]);
  getPhysicalGroups := λ dim, [(2, 1)%Z];
  getEntitiesForPhysicalGroup := λ dim tag, [1%Z]
|}.

(** The unit square cut into two triangles (elements 1 and 2 on surface
    1), with the given physical groups, all of which contain surface 1. *)
Definition twoTriangles (groups : list (Z * Z)) : gmshModel := {|
  getNodes := ([10; 11; 12; 13]%Z, squareCoords, []);
  getElements := λ dim, ([2%Z], [[1; 2]%Z], [[10; 11; 12; 10; 12; 13]%Z]);
  getElementsOfEntity := λ dim ent, ([2%Z], [[1; 2]%Z], [[10; 11; 12; 10; 12; 13]%Z]);
  getPhysicalGroups := λ dim, groups;
  getEntitiesForPhysicalGroup := λ dim tag, [1%Z]
|}.

(** A triangle that refers to node 14, which the mesh does not have. *)
Definition danglingMesh : gmshModel := {|
  getNodes := ([10; 11; 12; 13]%Z, squareCoords, []);
  getElements := λ dim, ([2%Z], [[1%Z]], [[10; 11; 14]%Z]);
  getElementsOfEntity := λ dim ent, ([2%Z], [[1%Z]], [[10; 11; 14]%Z]);
  getPhysicalGroups := λ dim, [];
  getEntitiesForPhysicalGroup := λ dim tag, []
|}.

(** Nodes, but a first element block without elements. *)
Definition emptyBlockMesh : gmshModel := {|
  getNodes := ([10; 11; 12; 13]%Z, squareCoords, []);
  getElements := λ dim, ([2%Z], [[]], [[]]);
  getElementsOfEntity := λ dim ent, noElements;
  getPhysicalGroups := λ dim, [];
  getEntitiesForPhysicalGroup := λ dim tag, []
|}.

(** The cell type and the number of nodes per element of the two element
    types the main loop knows. *)
Definition cellKind (elemType : Z) : option (cellType * nat) :=
  if decide (elemType = 3%Z) then Some (VTK_QUAD, 4)
  else if decide (elemType = 2%Z) then Some (VTK_TRIANGLE, 3)
  else None.

(** The cells of [n] elements of [k] nodes each, read off the translated
    connectivity in order. *)
Definition cellsOf (ct : cellType) (k : nat) (ordered : list nat) (n : nat)
  : list (cellType * list nat) :=
  (λ i, (ct, take k (drop (k * i) ordered))) <$> seq 0 n.

(** The model that keeps, in every answer of [getElements], the first
    per-type block only. *)
Definition firstBlock (els : elements) : elements :=
  let '(types, tags, nodes) := els in (take 1 types, take 1 tags, take 1 nodes).

Definition firstBlocksOnly (m : gmshModel) : gmshModel := {|
  getNodes := getNodes m;
  getElements := λ dim, firstBlock (getElements m dim);
  getElementsOfEntity := λ dim ent, firstBlock (getElementsOfEntity m dim ent);
  getPhysicalGroups := getPhysicalGroups m;
  getEntitiesForPhysicalGroup := getEntitiesForPhysicalGroup m
|}.

(** * convert_favorites.py

    Python strings are lists of characters; a string literal of the source
    is written [str "..."], and the newline character is [nl].  The path
    arithmetic of [pathlib] and the file system are outside the model: the
    functions below take [str(Path(file_path))] and the suffix of the path as
    inputs, and compute the text that the source writes with [f.write]. *)

(** Python strings. *)
Abbreviation pystr := (list ascii).

Definition str (s : string) : pystr := String.list_ascii_of_string s.

Definition nl : pystr := ["010"%char].

(** [s.replace(old, new)] for a non-empty [old]: the occurrences of [old]
    are found from left to right and do not overlap.  [skip] counts the
    characters of a matched occurrence that are still to be passed over. *)
Fixpoint replace_from (skip : nat) (old new s : pystr) : pystr :=
  match s with
  | [] => []
  | c :: s' =>
      match skip with
      | S k => replace_from k old new s'
      | 0 =>
          if bool_decide (old `prefix_of` s)
          then new ++ replace_from (length old - 1) old new s'
          else c :: replace_from 0 old new s'
      end
  end.

Definition py_replace (s old new : pystr) : pystr :=
  replace_from 0 old new s.

(** [s.endswith(suffix)] *)
Definition py_endswith (s suffix : pystr) : bool :=
  bool_decide (suffix `suffix_of` s).

(** [str(...).replace("/", "_").replace("\\", "_")], lines 121, 131 and
    174 of [main]. *)
Definition flatName (p : pystr) : pystr :=
  py_replace (py_replace p (str "/") (str "_")) (str "\") (str "_").

(** The character-wise effect of [flatName]. *)
Definition flatChar (x : ascii) : ascii :=
  if decide (x = "/"%char) then "_"%char
  else if decide (x = "\"%char) then "_"%char
  else x.

(** What [main] does with one file, and under which output name. *)
Inductive fileAction : Type :=
  | ConvertNotebook (output_name : pystr)
  | CopyText (output_name : pystr)
  | SkipUnsupported.

(** The output name of a notebook and of a text file. *)
Definition notebookName (output_name : pystr) : pystr :=
  py_replace output_name (str ".ipynb") (str ".txt").

Definition textName (output_name : pystr) : pystr :=
  if py_endswith output_name (str ".txt") then output_name
  else output_name ++ str ".txt".

(** A favourite that is a file, lines 172 to 197: [file_path] is
    [str(Path(file_path))] and [suffix] is [full_path.suffix]. *)
Definition favoriteFileAction (file_path suffix : pystr) : fileAction :=
  let output_name := flatName file_path in
  if decide (suffix = str ".ipynb") then
    ConvertNotebook (notebookName output_name)
  else if bool_decide (suffix ∈ [str ".py"; str ".txt"; str ".md"; str ".rst"]) then
    CopyText (textName output_name)
  else SkipUnsupported.

(** A file found in a favourite directory, lines 130 to 147:
    [relative_to_dir] is [str(file.relative_to(full_path))]. *)
Definition directoryFileAction (relative_to_dir suffix : pystr) : fileAction :=
  let output_name := flatName relative_to_dir in
  if decide (suffix = str ".ipynb") then
    ConvertNotebook (notebookName output_name)
  else CopyText (textName output_name).

(** The cells of a notebook (format 4) and the outputs of a code cell, with
    the fields that [convert_notebook_to_text] reads. *)
Inductive nbOutput : Type :=
  | Stream (text : pystr)
  | ExecuteResult (data : gmap string (pystr))
  | DisplayData (data : gmap string (pystr))
  | Error (ename evalue : pystr).

Inductive nbCell : Type :=
  | Markdown (source : pystr)
  | Code (source : pystr) (outputs : list nbOutput)
  | Raw (source : pystr).

(** The text written for one output, lines 42 to 48. *)
Definition outputText (output : nbOutput) : pystr :=
  match output with
  | Stream text => str "```" ++ nl ++ text ++ str "```" ++ nl
  | ExecuteResult data =>
      match data !! "text/plain"%string with
      | Some text => str "```" ++ nl ++ text ++ str "```" ++ nl
      | None => []
      end
  | DisplayData _ => []
  | Error ename evalue =>
      str "```" ++ nl ++ str "Error: " ++ ename ++ str ": " ++ evalue ++ nl
      ++ str "```" ++ nl
  end.

(** The text written for the cell numbered [i], lines 25 to 49. *)
Definition cellText (i : nat) (cell : nbCell) : pystr :=
  match cell with
  | Markdown source =>
      str "## Cell " ++ str (pretty i) ++ str " (Markdown)" ++ nl
      ++ replicate 30 "-"%char ++ nl
      ++ source
      ++ nl ++ nl
  | Code source outputs =>
      str "## Cell " ++ str (pretty i) ++ str " (Code)" ++ nl
      ++ replicate 30 "-"%char ++ nl
      ++ str "```python" ++ nl
      ++ source
      ++ nl ++ str "```" ++ nl ++ nl
      ++ match outputs with
         | [] => []
         | _ :: _ =>
             str "### Output:" ++ nl
             ++ concat (outputText <$> outputs)
             ++ nl
         end
  | Raw _ => []
  end.

(** [for i, cell in enumerate(nb.cells, start)] *)
Fixpoint cellsText (start : nat) (cells : list nbCell) : pystr :=
  match cells with
  | [] => []
  | cell :: cells' => cellText start cell ++ cellsText (S start) cells'
  end.

(** The two header lines and the blank line that both writers put first. *)
Definition headerText (label path : pystr) : pystr :=
  label ++ path ++ nl ++ replicate 60 "="%char ++ nl ++ nl.

(** The text [convert_notebook_to_text] writes to [output_path]. *)
Definition notebookText (notebook_path : pystr) (cells : list nbCell)
  : pystr :=
  headerText (str "# Converted from: ") notebook_path ++ cellsText 1 cells.

(** The text [copy_text_file] writes to [output_path]. *)
Definition copiedText (source_path content : pystr) : pystr :=
  headerText (str "# Copied from: ") source_path ++ content.

(** Two quadrilaterals announced, the connectivity of one supplied. *)
Definition shortQuadMesh : gmshModel := {|
  getNodes := ([10; 11; 12; 13]%Z, squareCoords, []);
  getElements := λ dim, ([3%Z], [[1; 2]%Z], [[10; 11; 12; 13]%Z]);
  getElementsOfEntity := λ dim ent, ([3%Z], [[1; 2]%Z], [[10; 11; 12; 13]%Z]);
  getPhysicalGroups := λ dim, [];
  getEntitiesForPhysicalGroup := λ dim tag, []
|}.

(** A model without any mesh: no node, no element block, no group. *)
Definition emptyMesh : gmshModel := {|
  getNodes := ([], [], []);
  getElements := λ dim, noElements;
  getElementsOfEntity := λ dim ent, noElements;
  getPhysicalGroups := λ dim, [];
  getEntitiesForPhysicalGroup := λ dim tag, []
|}.

(** Following the spec's words: a physical group owns entities, and an
    entity owns the elements the mesh lists for it, in any of its per-type
    blocks. *)
Definition belongsToGroup (m : gmshModel) (group : Z * Z) (e : Z) : Prop :=
  ∃ ent blk, ent ∈ getEntitiesForPhysicalGroup m group.1 group.2
             ∧ blk ∈ (getElementsOfEntity m group.1 ent).1.2
             ∧ e ∈ blk.

(** A triangle (element 1) on supplied nodes in the first block, and in the
    second block a quadrilateral (element 2) that refers to node 99, which
    the mesh does not have. *)
Definition laterBlockDanglingMesh : gmshModel := {|
  getNodes := ([10; 11; 12; 13]%Z, squareCoords, []);
  getElements := λ dim,
    ([2; 3]%Z, [[1%Z]; [2%Z]], [[10; 11; 12]%Z; [10; 12; 13; 99]%Z]);
  getElementsOfEntity := λ dim ent,
    ([2; 3]%Z, [[1%Z]; [2%Z]], [[10; 11; 12]%Z; [10; 12; 13; 99]%Z]);
  getPhysicalGroups := λ dim, [];
  getEntitiesForPhysicalGroup := λ dim tag, []
|}.

(** One surface (entity 1) meshed with a triangle (element 2) and a
    quadrilateral (element 1), so that its elements come in two per-type
    blocks; the surface is in the physical groups 7 and 4. *)
Definition twoBlockEntityMesh : gmshModel := {|
  getNodes := ([10; 11; 12; 13; 14]%Z, fiveCoords, []);
  getElements := λ dim,
    ([2; 3]%Z, [[2%Z]; [1%Z]], [[10; 11; 14]%Z; [10; 11; 12; 13]%Z]);
  getElementsOfEntity := λ dim ent,
    ([2; 3]%Z, [[2%Z]; [1%Z]], [[10; 11; 14]%Z; [10; 11; 12; 13]%Z]);
  getPhysicalGroups := λ dim, [(2, 7); (2, 4)]%Z;
  getEntitiesForPhysicalGroup := λ dim tag, [1%Z]
|}.

(** * Properties *)

(** ** The result monad *)

Lemma bind_Ok {A B : Type} (r : result A) (f : A → result B) (b : B) :
  r ≫= f = Ok b ↔ ∃ a, r = Ok a ∧ f a = Ok b.
Proof.
  split.
  - destruct r as [a|e]; simpl; [eauto | discriminate].
  - intros (a & -> & Hf). exact Hf.
Qed.

(** Splits a hypothesis [x ← r; k = Ok b] into its two halves. *)
Ltac inv_bind H :=
  let a := fresh "a" in
  let Ha := fresh "Ha" in
  apply bind_Ok in H; destruct H as (a & Ha & H).

Ltac inv_bind_as H a Ha :=
  apply bind_Ok in H; destruct H as (a & Ha & H).

Lemma foldM_app {A S : Type} (f : S → A → result S) (s : S) (l k : list A) :
  foldM f s (l ++ k) = foldM f s l ≫= λ s', foldM f s' k.
Proof.
  revert s. induction l as [|x l IH]; intros s; simpl; [reflexivity|].
  destruct (f s x) as [s'|e]; simpl; [apply IH | reflexivity].
Qed.

(** ** Python primitives *)

Lemma py_index_Ok {A : Type} (l : list A) (i : nat) (x : A) :
  py_index l i = Ok x ↔ l !! i = Some x.
Proof.
  unfold py_index. destruct (l !! i); split; intros H; congruence.
Qed.

Lemma py_index_lt {A : Type} (l : list A) (i : nat) :
  i < length l → ∃ x, py_index l i = Ok x ∧ l !! i = Some x.
Proof.
  intros Hi. destruct (lookup_lt_is_Some_2 l i Hi) as [x Hx].
  exists x. split; [by apply py_index_Ok | done].
Qed.

Lemma py_min_spec (l : list Z) (mn : Z) :
  py_min l = Ok mn → mn ∈ l ∧ ∀ x, x ∈ l → (mn ≤ x)%Z.
Proof.
  destruct l as [|a l]; simpl; [discriminate|]. intros [= <-].
  revert a. induction l as [|b l IH]; intros a; simpl.
  - split; [apply list_elem_of_here|].
    intros x Hx. apply list_elem_of_singleton in Hx. lia.
  - destruct (IH (Z.min a b)) as [Hin Hle]. split.
    + rewrite !elem_of_cons. apply elem_of_cons in Hin as [->|Hin]; [|auto].
      destruct (Z.min_spec a b) as [[_ ->]|[_ ->]]; auto.
    + intros x Hx.
      assert (foldl Z.min (Z.min a b) l ≤ Z.min a b)%Z
        by (apply Hle, list_elem_of_here).
      apply elem_of_cons in Hx as [->|Hx]; [lia|].
      apply elem_of_cons in Hx as [->|Hx]; [lia|].
      apply Hle. by apply list_elem_of_further.
Qed.

Lemma py_max_spec (l : list Z) (mx : Z) :
  py_max l = Ok mx → mx ∈ l ∧ ∀ x, x ∈ l → (x ≤ mx)%Z.
Proof.
  destruct l as [|a l]; simpl; [discriminate|]. intros [= <-].
  revert a. induction l as [|b l IH]; intros a; simpl.
  - split; [apply list_elem_of_here|].
    intros x Hx. apply list_elem_of_singleton in Hx. lia.
  - destruct (IH (Z.max a b)) as [Hin Hle]. split.
    + rewrite !elem_of_cons. apply elem_of_cons in Hin as [->|Hin]; [|auto].
      destruct (Z.max_spec a b) as [[_ ->]|[_ ->]]; auto.
    + intros x Hx.
      assert (Z.max a b ≤ foldl Z.max (Z.max a b) l)%Z
        by (apply Hle, list_elem_of_here).
      apply elem_of_cons in Hx as [->|Hx]; [lia|].
      apply elem_of_cons in Hx as [->|Hx]; [lia|].
      apply Hle. by apply list_elem_of_further.
Qed.

(** ** Node indexer *)

Lemma nodeTagToIndex_from_cons (d : gmap Z nat) (n : nat) (t : Z) (l : list Z) :
  nodeTagToIndex_from d n (t :: l) = nodeTagToIndex_from (<[t := n]> d) (S n) l.
Proof. reflexivity. Qed.

Lemma nodeTagToIndex_from_notin (l : list Z) (d : gmap Z nat) (n : nat) (t : Z) :
  t ∉ l → nodeTagToIndex_from d n l !! t = d !! t.
Proof.
  revert d n. induction l as [|a l IH]; intros d n Ht; [reflexivity|].
  apply not_elem_of_cons in Ht as [Hne Ht].
  rewrite nodeTagToIndex_from_cons, IH by done.
  by apply lookup_insert_ne.
Qed.

Lemma nodeTagToIndex_from_lookup (l : list Z) (d : gmap Z nat) (n i : nat) (t : Z) :
  NoDup l → l !! i = Some t → nodeTagToIndex_from d n l !! t = Some (n + i).
Proof.
  revert d n i. induction l as [|a l IH]; intros d n i Hnd Hi; [done|].
  apply NoDup_cons in Hnd as [Ha Hnd].
  rewrite nodeTagToIndex_from_cons.
  destruct i as [|i]; simpl in Hi.
  - injection Hi as ->.
    rewrite nodeTagToIndex_from_notin by done.
    rewrite lookup_insert_eq. f_equal. lia.
  - rewrite (IH _ _ i) by done. f_equal. lia.
Qed.

Lemma nodeTagToIndex_lookup (nodeTags : list Z) (t : Z) (i : nat) :
  NoDup nodeTags →
  nodeTagToIndex nodeTags !! t = Some i ↔ nodeTags !! i = Some t.
Proof.
  intros Hnd. unfold nodeTagToIndex. split.
  - intros Hl. destruct (decide (t ∈ nodeTags)) as [Hin|Hnin].
    + apply list_elem_of_lookup in Hin as [j Hj].
      rewrite (nodeTagToIndex_from_lookup _ _ _ j) in Hl by done.
      simpl in Hl. by injection Hl as <-.
    + rewrite nodeTagToIndex_from_notin in Hl by done.
      by rewrite lookup_empty in Hl.
  - intros Hi. by rewrite (nodeTagToIndex_from_lookup _ _ _ i).
Qed.

(** Without the no-duplicates assumption the index still covers exactly
    the supplied identifiers. *)
Lemma nodeTagToIndex_from_is_Some (l : list Z) (d : gmap Z nat) (n : nat) (t : Z) :
  is_Some (nodeTagToIndex_from d n l !! t) ↔ t ∈ l ∨ is_Some (d !! t).
Proof.
  revert d n. induction l as [|a l IH]; intros d n.
  - simpl. rewrite elem_of_nil. tauto.
  - rewrite nodeTagToIndex_from_cons, IH, elem_of_cons.
    destruct (decide (a = t)) as [->|Hne].
    + rewrite lookup_insert_eq. split; [auto|]. intros _. right. eauto.
    + rewrite lookup_insert_ne by done. split; [tauto|].
      intros [[?|?]|?]; [congruence|tauto|tauto].
Qed.

Lemma nodeTagToIndex_is_Some (nodeTags : list Z) (t : Z) :
  is_Some (nodeTagToIndex nodeTags !! t) ↔ t ∈ nodeTags.
Proof.
  unfold nodeTagToIndex. rewrite nodeTagToIndex_from_is_Some, lookup_empty.
  split; [|auto]. intros [?|[? ?]]; [done|discriminate].
Qed.

Lemma nodeTagToIndex_None (nodeTags : list Z) (t : Z) :
  t ∉ nodeTags → nodeTagToIndex nodeTags !! t = None.
Proof.
  intros Ht. apply eq_None_not_Some. by rewrite nodeTagToIndex_is_Some.
Qed.

Lemma InsertNextPoint_Ok (coords : list Qc) (pts : list (Qc * Qc * Qc)) (i : nat) :
  3 * i + 2 < length coords →
  ∃ x y z, coords !! (3 * i) = Some x ∧ coords !! (3 * i + 1) = Some y
    ∧ coords !! (3 * i + 2) = Some z
    ∧ InsertNextPoint coords pts i = Ok (pts ++ [(x, y, z)]).
Proof.
  intros Hi. unfold InsertNextPoint.
  destruct (py_index_lt coords (3 * i)) as (x & -> & Hx); [lia|].
  destruct (py_index_lt coords (3 * i + 1)) as (y & -> & Hy); [lia|].
  destruct (py_index_lt coords (3 * i + 2)) as (z & -> & Hz); [lia|].
  by exists x, y, z.
Qed.

(** The point loop: started with [a] points already inserted, [k] more
    iterations append the points of the nodes [a .. a+k-1]. *)
Lemma vtk_points_loop (coords : list Qc) (k : nat) :
  ∀ (a : nat) (pts : list (Qc * Qc * Qc)),
  length pts = a → 3 * (a + k) ≤ length coords →
  ∃ pts', foldM (InsertNextPoint coords) pts (seq a k) = Ok pts'
    ∧ length pts' = a + k
    ∧ (∀ i, i < a → pts' !! i = pts !! i)
    ∧ (∀ i, a ≤ i < a + k → ∃ x y z,
         coords !! (3 * i) = Some x ∧ coords !! (3 * i + 1) = Some y
         ∧ coords !! (3 * i + 2) = Some z ∧ pts' !! i = Some (x, y, z)).
Proof.
  induction k as [|k IH]; intros a pts Hlen Hc; cbn [seq foldM].
  - exists pts. split_and!; [done|lia|done|lia].
  - destruct (InsertNextPoint_Ok coords pts a) as (x & y & z & Hx & Hy & Hz & ->);
      [lia|].
    cbn [mbind result_bind].
    destruct (IH (S a) (pts ++ [(x, y, z)])) as (pts' & Hrun & Hl & Hold & Hnew).
    { rewrite length_app. simpl. lia. }
    { lia. }
    exists pts'. split_and!; [done|lia| |].
    + intros i Hi. rewrite Hold by lia. apply lookup_app_l. lia.
    + intros i Hi. destruct (decide (i = a)) as [->|Hne].
      * exists x, y, z. split_and!; [done..|].
        rewrite Hold by lia. rewrite lookup_app_r by lia.
        by rewrite Hlen, Nat.sub_diag.
      * apply Hnew. lia.
Qed.

(** C8.  For a node list without duplicate identifiers the index is a
    bijection between the identifiers and the positions [0 .. |ids|-1]:
    an identifier is mapped to position [i] exactly when it is the [i]-th
    identifier supplied, so each identifier has one position and each
    position below [|ids|] is the image of exactly one identifier.  With
    three coordinates per node available, the point array is built, has
    one point per node, and its [i]-th point carries the coordinates of the
    [i]-th supplied node. *)
Theorem node_index_bijective (nodeTags : list Z) (coords : list Qc) :
  NoDup nodeTags →
  3 * length nodeTags ≤ length coords →
  (∀ t i, nodeTagToIndex nodeTags !! t = Some i ↔ nodeTags !! i = Some t)
  ∧ (∀ t, t ∈ nodeTags →
       ∃ i, i < length nodeTags ∧ nodeTagToIndex nodeTags !! t = Some i)
  ∧ (∀ i, i < length nodeTags →
       ∃ t, nodeTagToIndex nodeTags !! t = Some i
            ∧ ∀ t', nodeTagToIndex nodeTags !! t' = Some i → t' = t)
  ∧ ∃ pts, vtk_points nodeTags coords = Ok pts
      ∧ length pts = length nodeTags
      ∧ ∀ i, i < length nodeTags → ∃ x y z,
          coords !! (3 * i) = Some x ∧ coords !! (3 * i + 1) = Some y
          ∧ coords !! (3 * i + 2) = Some z ∧ pts !! i = Some (x, y, z).
Proof.
  intros Hnd Hc.
  pose proof (λ t i, nodeTagToIndex_lookup nodeTags t i Hnd) as Hiff.
  split_and!.
  - exact Hiff.
  - intros t Ht. apply list_elem_of_lookup in Ht as [i Hi].
    exists i. split; [by eapply lookup_lt_Some | by apply Hiff].
  - intros i Hi. destruct (lookup_lt_is_Some_2 nodeTags i Hi) as [t Ht].
    exists t. split; [by apply Hiff|].
    intros t' Ht'. apply Hiff in Ht'. congruence.
  - destruct (vtk_points_loop coords (length nodeTags) 0 []) as
      (pts & Hrun & Hl & _ & Hnew); [done|simpl; lia|].
    exists pts. split_and!; [exact Hrun|exact Hl|].
    intros i Hi. apply Hnew. lia.
Qed.

Lemma node_index_bijective_witness :
  NoDup [10; 11; 14]%Z
  ∧ 3 * length [10; 11; 14]%Z ≤ length (replicate 9 0%Qc)
  ∧ nodeTagToIndex [10; 11; 14]%Z !! 14%Z = Some 2
  ∧ ∃ pts, vtk_points [10; 11; 14]%Z (replicate 9 0%Qc) = Ok pts ∧ length pts = 3.
Proof.
  assert (NoDup [10; 11; 14]%Z) as Hnd
    by (apply (bool_decide_unpack _); vm_compute; exact I).
  assert (3 * length [10; 11; 14]%Z ≤ length (replicate 9 0%Qc)) as Hc
    by (simpl; lia).
  destruct (node_index_bijective [10; 11; 14]%Z (replicate 9 0%Qc) Hnd Hc)
    as (Hiff & _ & _ & pts & Hpts & Hlen & _).
  split_and!; [exact Hnd | exact Hc | by apply Hiff | by exists pts].
Defined.

(** ** Cell assembler: resolving node identifiers *)

Lemma orderedElemNodeTags_missing (idx : gmap Z nat) (elemNodeTags : list Z) (t : Z) :
  t ∈ elemNodeTags → idx !! t = None →
  ∃ t', t' ∈ elemNodeTags ∧ idx !! t' = None
        ∧ orderedElemNodeTags idx elemNodeTags = Raise (KeyError t').
Proof.
  induction elemNodeTags as [|a l IH]; intros Hin Hnone.
  - by apply elem_of_nil in Hin.
  - simpl. unfold py_getitem. destruct (idx !! a) as [i|] eqn:Ha.
    + apply elem_of_cons in Hin as [->|Hin]; [congruence|].
      destruct (IH Hin Hnone) as (t' & Hin' & Hnone' & ->).
      exists t'. split_and!; [by apply list_elem_of_further|done|done].
    + exists a. split_and!; [apply list_elem_of_here|done|done].
Qed.

Lemma orderedElemNodeTags_Ok (idx : gmap Z nat) (elemNodeTags : list Z) :
  (∀ t, t ∈ elemNodeTags → is_Some (idx !! t)) →
  ∃ ordered, orderedElemNodeTags idx elemNodeTags = Ok ordered
    ∧ length ordered = length elemNodeTags.
Proof.
  induction elemNodeTags as [|a l IH]; intros Hall; simpl.
  - by exists [].
  - destruct (Hall a) as [i Hi]; [apply list_elem_of_here|].
    unfold py_getitem. rewrite Hi. simpl.
    destruct IH as (ordered & -> & Hlen).
    { intros t Ht. apply Hall. by apply list_elem_of_further. }
    exists (i :: ordered). simpl. by rewrite Hlen.
Qed.

(** C5, amended.  When the connectivity read by the conversion (the node
    tags of the first per-type element block, the only block it converts)
    mentions a node identifier that is not among the supplied nodes, the
    whole conversion raises [KeyError] on such an identifier: the result is
    an exception, not a grid, whatever the element type. *)
Theorem missing_node_aborts {FA : FloatArith} (m : gmshModel)
    (nodeTags : list Z) (coords pcoords : list Qc)
    (elemType : Z) (types : list Z) (elemTags : list Z) (tags : list (list Z))
    (elemNodeTags : list Z) (nodes : list (list Z)) (t : Z) :
  getNodes m = (nodeTags, coords, pcoords) →
  getElements m 2%Z = (elemType :: types, elemTags :: tags, elemNodeTags :: nodes) →
  t ∈ elemNodeTags → t ∉ nodeTags →
  ∃ t', t' ∈ elemNodeTags ∧ (t' ∉ nodeTags) ∧ gmsh2VTU m = Raise (KeyError t').
Proof.
  intros Hn He Hin Hnin. unfold gmsh2VTU. rewrite Hn, He. simpl.
  destruct (orderedElemNodeTags_missing (nodeTagToIndex nodeTags) elemNodeTags t)
    as (t' & Hin' & Hnone & ->); [done|by apply nodeTagToIndex_None|].
  exists t'. split_and!; [done| |done].
  intros Ht'. apply nodeTagToIndex_is_Some in Ht'. rewrite Hnone in Ht'.
  by destruct Ht'.
Qed.

(** ** Region projector: resolving the region map *)

Lemma assignElements_cons (tag a : Z) (blk : list Z) (pgm : gmap Z Z) :
  assignElements tag pgm (a :: blk) = assignElements tag (<[a := tag]> pgm) blk.
Proof. reflexivity. Qed.

Lemma assignElements_lookup (tag : Z) (blk : list Z) (pgm : gmap Z Z) (e : Z) :
  assignElements tag pgm blk !! e = if decide (e ∈ blk) then Some tag else pgm !! e.
Proof.
  revert pgm. induction blk as [|a blk IH]; intros pgm.
  - by rewrite decide_False by apply not_elem_of_nil.
  - rewrite assignElements_cons, IH. destruct (decide (e ∈ blk)) as [Hin|Hnin].
    + by rewrite decide_True by (by apply list_elem_of_further).
    + destruct (decide (a = e)) as [->|Hne].
      * rewrite decide_True by apply list_elem_of_here. apply lookup_insert_eq.
      * rewrite decide_False by (rewrite elem_of_cons; intros [?|?]; congruence).
        by apply lookup_insert_ne.
Qed.

Lemma assignEntity_Ok (m : gmshModel) (dim tag ent : Z) (pgm pgm' : gmap Z Z) :
  assignEntity m dim tag pgm ent = Ok pgm' →
  ∃ blk, (getElementsOfEntity m dim ent).1.2 !! 0 = Some blk
         ∧ pgm' = assignElements tag pgm blk.
Proof.
  unfold assignEntity. destruct (getElementsOfEntity m dim ent) as [[ty tags] nodes].
  simpl. intros H. inv_bind H. apply py_index_Ok in Ha.
  injection H as <-. by exists a.
Qed.

Lemma assignEntity_lookup (m : gmshModel) (dim tag ent : Z) (pgm pgm' : gmap Z Z) (e : Z) :
  assignEntity m dim tag pgm ent = Ok pgm' →
  (ownsElement m dim ent e → pgm' !! e = Some tag)
  ∧ (¬ ownsElement m dim ent e → pgm' !! e = pgm !! e).
Proof.
  intros (blk & Hblk & ->)%assignEntity_Ok. rewrite assignElements_lookup. split.
  - intros (blk' & Hblk' & Hin). rewrite Hblk in Hblk'. injection Hblk' as <-.
    by rewrite decide_True.
  - intros Hno. rewrite decide_False; [done|].
    intros Hin. apply Hno. by exists blk.
Qed.

Section RegionMap.
Variable m : gmshModel.
Variable e : Z.

Lemma assignEntities_keep (dim tag : Z) (ents : list Z) (pgm pgm' : gmap Z Z) :
  foldM (assignEntity m dim tag) pgm ents = Ok pgm' →
  pgm !! e = Some tag → pgm' !! e = Some tag.
Proof.
  revert pgm. induction ents as [|ent ents IH]; intros pgm Hrun Hpgm; simpl in Hrun.
  - by injection Hrun as <-.
  - inv_bind Hrun. apply (IH a); [done|].
    destruct (assignEntity_lookup m dim tag ent pgm a e Ha) as [Hown Hnot].
    destruct (decide (ownsElement m dim ent e)); [auto|].
    by rewrite Hnot.
Qed.
Lemma assignEntities_lookup (dim tag : Z) (ents : list Z) (pgm pgm' : gmap Z Z) :
  foldM (assignEntity m dim tag) pgm ents = Ok pgm' →
  ((∃ ent, ent ∈ ents ∧ ownsElement m dim ent e) → pgm' !! e = Some tag)
  ∧ ((∀ ent, ent ∈ ents → ¬ ownsElement m dim ent e) → pgm' !! e = pgm !! e).
Proof.
  revert pgm. induction ents as [|ent ents IH]; intros pgm Hrun; simpl in Hrun.
  - injection Hrun as <-. split; [|done].
    intros (ent & Hin & _). by apply elem_of_nil in Hin.
  - inv_bind Hrun.
    destruct (assignEntity_lookup m dim tag ent pgm a e Ha) as [Hown Hnot].
    destruct (IH a Hrun) as [IHown IHnot]. split.
    + intros (ent' & Hin & Ho).
      destruct (decide (ownsElement m dim ent e)) as [Hd|Hd].
      * eapply assignEntities_keep; eauto.
      * apply IHown. exists ent'. split; [|done].
        apply elem_of_cons in Hin as [->|Hin]; [done|done].
    + intros Hall. rewrite IHnot, Hnot; [done| |].
      * apply Hall, list_elem_of_here.
      * intros ent' Hin. by apply Hall, list_elem_of_further.
Qed.

Lemma assignGroup_lookup (group : Z * Z) (pgm pgm' : gmap Z Z) :
  assignGroup m pgm group = Ok pgm' →
  (reachable m group e → pgm' !! e = Some group.2)
  ∧ (¬ reachable m group e → pgm' !! e = pgm !! e).
Proof.
  destruct group as [dim tag]. unfold assignGroup, reachable. simpl.
  intros Hrun. destruct (assignEntities_lookup _ _ _ _ _ Hrun) as [Hown Hnot].
  split; [exact Hown|]. intros Hno. apply Hnot. intros ent Hin Ho.
  apply Hno. by exists ent.
Qed.

Lemma assignGroups_unreachable (groups : list (Z * Z)) (pgm pgm' : gmap Z Z) :
  foldM (assignGroup m) pgm groups = Ok pgm' →
  (∀ g, g ∈ groups → ¬ reachable m g e) → pgm' !! e = pgm !! e.
Proof.
  revert pgm. induction groups as [|g groups IH]; intros pgm Hrun Hall;
    simpl in Hrun.
  - by injection Hrun as <-.
  - inv_bind Hrun. rewrite (IH a Hrun).
    + apply (assignGroup_lookup g pgm a Ha), Hall, list_elem_of_here.
    + intros g' Hin. by apply Hall, list_elem_of_further.
Qed.

(** The group processed last among those reaching [e] decides its tag. *)
Lemma physicalGroupMap_last (before after : list (Z * Z)) (g : Z * Z)
    (pgm : gmap Z Z) :
  getPhysicalGroups m 2%Z = before ++ g :: after →
  reachable m g e →
  (∀ g', g' ∈ after → ¬ reachable m g' e) →
  physicalGroupMap m = Ok pgm →
  pgm !! e = Some g.2.
Proof.
  intros Hgroups Hreach Hafter. unfold physicalGroupMap.
  rewrite Hgroups, foldM_app. intros Hrun. inv_bind Hrun.
  simpl in Hrun. inv_bind Hrun.
  rewrite (assignGroups_unreachable after a0 pgm Hrun Hafter).
  by apply (assignGroup_lookup g a a0 Ha0).
Qed.

(** An element no group reaches is absent from the map. *)
Lemma physicalGroupMap_unreachable (pgm : gmap Z Z) :
  (∀ g, g ∈ getPhysicalGroups m 2%Z → ¬ reachable m g e) →
  physicalGroupMap m = Ok pgm → pgm !! e = None.
Proof.
  intros Hall Hrun. unfold physicalGroupMap in Hrun.
  rewrite (assignGroups_unreachable _ _ _ Hrun Hall). apply lookup_empty.
Qed.
End RegionMap.

(** C7, amended.  When element [e] is reachable from the physical groups
    [g1] and [g2] the way the conversion walks the mesh (through the first
    per-type element block of one of their entities), [g1] is processed
    before [g2] and no group processed after [g2] reaches [e], the region
    map built by the conversion gives [e] the tag of [g2], whatever the tag
    of [g1] (and whatever the groups processed in between do). *)
Theorem last_write_wins (m : gmshModel) (e : Z) (g1 g2 : Z * Z)
    (before between after : list (Z * Z)) (pgm : gmap Z Z) :
  getPhysicalGroups m 2%Z = before ++ g1 :: between ++ g2 :: after →
  reachable m g1 e →
  reachable m g2 e →
  (∀ g, g ∈ after → ¬ reachable m g e) →
  physicalGroupMap m = Ok pgm →
  pgm !! e = Some g2.2.
Proof.
  intros Hgroups _ Hg2 Hafter Hrun.
  apply (physicalGroupMap_last m e (before ++ g1 :: between) after g2);
    [|done..].
  by rewrite Hgroups, <- app_assoc.
Qed.

(** ** Region projector: normalisation *)

Section Normalize.
Context {FA : FloatArith}.
Local Open Scope Qc_scope.

Lemma Qc_of_Z_pos (z : Z) : (0 < z)%Z → 0 < Qc_of_Z z.
Proof.
  intros Hz. apply Z2Qc_inj_lt in Hz. by rewrite Z2Qc_inj_0 in Hz.
Qed.

Lemma Qc_of_Z_nonneg (z : Z) : (0 ≤ z)%Z → 0 ≤ Qc_of_Z z.
Proof.
  intros Hz. apply Z2Qc_inj_le in Hz. by rewrite Z2Qc_inj_0 in Hz.
Qed.


Lemma Qcdiv_unit_interval (a d : Qc) : 0 ≤ a → a ≤ d → 0 < d → 0 ≤ a / d ≤ 1.
Proof.
  intros Ha Had Hd. pose proof (Qcinv_pos d Hd) as Hinv. unfold Qcdiv. split.
  - apply Qcmult_nonneg_nonneg; [done|by apply Qclt_le_weak].
  - rewrite <- (Qcmult_inv_r d) by (intros ->; by apply Qclt_not_eq in Hd).
    apply Qcmult_le_mono_nonneg_r; [by apply Qclt_le_weak|done].
Qed.

Lemma Qc_one_minus_unit_interval (q : Qc) : 0 ≤ q ≤ 1 → 0 ≤ 1 - q ≤ 1.
Proof.
  intros [H0 H1]. split.
  - apply (Qcplus_le_mono_r _ _ q). ring_simplify. exact H1.
  - apply (Qcplus_le_mono_r _ _ q). ring_simplify.
    apply (Qcplus_le_mono_l 0 q 1) in H0. rewrite Qcplus_0_r in H0.
    by rewrite Qcplus_comm.
Qed.

(** Rounding keeps a value of the unit interval in the unit interval. *)
Lemma round_unit_interval (q : Qc) : 0 ≤ q ≤ 1 → 0 ≤ round q ≤ 1.
Proof.
  intros [H0 H1]. split.
  - rewrite <- round_0. by apply round_mono.
  - rewrite <- round_1. by apply round_mono.
Qed.



Lemma true_div_unit_interval (a d : Z) :
  (0 ≤ a ≤ d)%Z → (0 < d)%Z → 0 ≤ true_div a d ≤ 1.
Proof.
  intros [Ha Had] Hd. unfold true_div.
  apply round_unit_interval, Qcdiv_unit_interval.
  - by apply Qc_of_Z_nonneg.
  - by apply Z2Qc_inj_le in Had.
  - by apply Qc_of_Z_pos.
Qed.



Lemma normalize_bounds (mn mx r : Z) :
  (mn ≤ r ≤ mx)%Z → mn ≠ mx → 0 ≤ normalize mn mx r ≤ 1.
Proof.
  intros Hr Hne. unfold normalize, float_sub.
  apply round_unit_interval, Qc_one_minus_unit_interval, true_div_unit_interval; lia.
Qed.

End Normalize.

Lemma normalizedRegions_length {FA : FloatArith} (regionValues : list Z) (nr : list Qc) :
  normalizedRegions regionValues = Ok nr → length nr = length regionValues.
Proof.
  unfold normalizedRegions. intros H. inv_bind H. inv_bind H.
  destruct (decide (a = a0)); injection H as <-.
  - apply length_replicate.
  - apply length_fmap.
Qed.

(** Writing [length pre] values one by one into an array that has room for
    them overwrites exactly the slots after [pre]. *)
Lemma SetValue_loop (l pre suf : list Qc) :
  length l ≤ length suf →
  foldl (λ arr '(i, v), SetValue arr i v) (pre ++ suf) (enumerate_from (length pre) l)
  = pre ++ l ++ drop (length l) suf.
Proof.
  revert pre suf. induction l as [|x l IH]; intros pre suf Hlen; simpl.
  - by rewrite drop_0.
  - destruct suf as [|s suf]; simpl in Hlen; [lia|].
    unfold SetValue at 2. rewrite insert_app_r_alt, Nat.sub_diag by lia. simpl.
    replace (pre ++ x :: suf) with ((pre ++ [x]) ++ suf) by by rewrite <- app_assoc.
    replace (S (length pre)) with (length (pre ++ [x]))
      by (rewrite length_app; simpl; lia).
    rewrite IH by lia. by rewrite <- app_assoc.
Qed.

(** The region array ends up holding the normalised values, whatever it
    held before. *)
Lemma regionArray_id (n : nat) (normalized : list Qc) :
  length normalized = n → regionArray n normalized = normalized.
Proof.
  intros Hlen. unfold regionArray, enumerate, SetNumberOfTuples.
  pose proof (SetValue_loop normalized [] (replicate n 0%Qc)) as H.
  cbn [app length] in H. rewrite H by (rewrite length_replicate; lia).
  rewrite drop_ge by (rewrite length_replicate; lia).
  apply app_nil_r.
Qed.



(** ** Cell assembler: the main loop *)

Lemma insertCell_unsupported (elemType : Z) (ordered : list nat)
    (cells : list (cellType * list nat)) (i : nat) :
  elemType ≠ 3%Z → elemType ≠ 2%Z → insertCell elemType ordered cells i = Ok cells.
Proof.
  intros H3 H2. unfold insertCell. by rewrite !decide_False.
Qed.

Lemma insertCell_supported (elemType : Z) (ordered : list nat)
    (cells cells' : list (cellType * list nat)) (i : nat) :
  elemType = 3%Z ∨ elemType = 2%Z →
  insertCell elemType ordered cells i = Ok cells' →
  ∃ c, cells' = cells ++ [c].
Proof.
  unfold insertCell. intros [->| ->] H.
  - rewrite decide_True in H by done. inv_bind H. injection H as <-. eauto.
  - rewrite decide_False, decide_True in H by done.
    inv_bind H. injection H as <-. eauto.
Qed.

Lemma loopBody_Ok (elemType : Z) (elemTags : list Z) (ordered : list nat)
    (pgm : gmap Z Z) (cells cells' : list (cellType * list nat))
    (rv rv' : list Z) (i : nat) :
  loopBody elemType elemTags ordered pgm (cells, rv) i = Ok (cells', rv') →
  ∃ elemTag, elemTags !! i = Some elemTag
    ∧ insertCell elemType ordered cells i = Ok cells'
    ∧ rv' = rv ++ [rawRegion pgm elemTag].
Proof.
  unfold loopBody. intros H. inv_bind H. inv_bind H.
  apply py_index_Ok in Ha0. injection H as <- <-. by exists a0.
Qed.

(** After [k] iterations the loop has recorded the raw region values of
    the first [k] elements; it has inserted [k] cells when the element type
    is one of the two it knows, and none otherwise. *)
Lemma mainLoop_prefix (elemType : Z) (elemTags : list Z) (ordered : list nat)
    (pgm : gmap Z Z) (k : nat) :
  ∀ cells rv,
  foldM (loopBody elemType elemTags ordered pgm) ([], []) (seq 0 k) = Ok (cells, rv) →
  rv = rawRegion pgm <$> take k elemTags
  ∧ (elemType = 3%Z ∨ elemType = 2%Z → length cells = k)
  ∧ (elemType ≠ 3%Z → elemType ≠ 2%Z → cells = []).
Proof.
  induction k as [|k IH]; intros cells rv Hrun.
  - simpl in Hrun. injection Hrun as <- <-. by rewrite take_0.
  - rewrite seq_S, foldM_app in Hrun. inv_bind Hrun. destruct a as [cells0 rv0].
    destruct (IH _ _ Ha) as (-> & Hsup & Hunsup).
    simpl in Hrun. inv_bind Hrun. injection Hrun as ->.
    apply loopBody_Ok in Ha0 as (elemTag & Htag & Hcell & ->).
    split_and!.
    + by rewrite (take_S_r _ _ _ Htag), fmap_app.
    + intros Hty. destruct (insertCell_supported _ _ _ _ _ Hty Hcell) as [c ->].
      rewrite length_app, Hsup by done. simpl. lia.
    + intros H3 H2. rewrite insertCell_unsupported in Hcell by done.
      injection Hcell as <-. by apply Hunsup.
Qed.

Lemma mainLoop_Ok (elemType : Z) (elemTags : list Z) (ordered : list nat)
    (pgm : gmap Z Z) (cells : list (cellType * list nat)) (rv : list Z) :
  mainLoop elemType elemTags ordered pgm = Ok (cells, rv) →
  rv = rawRegion pgm <$> elemTags
  ∧ (elemType = 3%Z ∨ elemType = 2%Z → length cells = length elemTags)
  ∧ (elemType ≠ 3%Z → elemType ≠ 2%Z → cells = []).
Proof.
  intros Hrun. apply mainLoop_prefix in Hrun. by rewrite firstn_all in Hrun.
Qed.

(** For an element type other than 2 and 3 the loop never raises: it
    inserts no cell and still records one region value per element. *)
Lemma mainLoop_unsupported (elemType : Z) (elemTags : list Z) (ordered : list nat)
    (pgm : gmap Z Z) :
  elemType ≠ 3%Z → elemType ≠ 2%Z →
  mainLoop elemType elemTags ordered pgm = Ok ([], rawRegion pgm <$> elemTags).
Proof.
  intros H3 H2. unfold mainLoop.
  assert (∀ k, k ≤ length elemTags →
    foldM (loopBody elemType elemTags ordered pgm) ([], []) (seq 0 k)
    = Ok ([], rawRegion pgm <$> take k elemTags)) as Hk.
  { induction k as [|k IH]; intros Hle; [by rewrite take_0|].
    rewrite seq_S, foldM_app, IH by lia. simpl.
    rewrite insertCell_unsupported by done. simpl.
    destruct (py_index_lt elemTags k) as (elemTag & -> & Htag); [lia|]. simpl.
    by rewrite (take_S_r _ _ _ Htag), fmap_app. }
  rewrite Hk by done. by rewrite firstn_all.
Qed.

(** ** The conversion as a whole *)

(** What a returned grid tells about the run that produced it. *)
Lemma gmsh2VTU_Ok {FA : FloatArith} (m : gmshModel) (g : vtkUnstructuredGrid) :
  gmsh2VTU m = Ok g →
  ∃ nodeTags coords pcoords elemType types elemTags tags elemNodeTags nodes
    ordered pgm nr,
    getNodes m = (nodeTags, coords, pcoords)
    ∧ getElements m 2%Z = (elemType :: types, elemTags :: tags, elemNodeTags :: nodes)
    ∧ orderedElemNodeTags (nodeTagToIndex nodeTags) elemNodeTags = Ok ordered
    ∧ vtk_points nodeTags coords = Ok (Points g)
    ∧ physicalGroupMap m = Ok pgm
    ∧ mainLoop elemType elemTags ordered pgm = Ok (Cells g, rawRegion pgm <$> elemTags)
    ∧ normalizedRegions (rawRegion pgm <$> elemTags) = Ok nr
    ∧ CellData g = [("Region"%string, nr)].
Proof.
  unfold gmsh2VTU.
  destruct (getNodes m) as [[nodeTags coords] pcoords].
  destruct (getElements m 2%Z) as [[types tags] nodes].
  intros H.
  inv_bind_as H elemType Ha. apply py_index_Ok in Ha.
  inv_bind_as H elemTags Ha0. apply py_index_Ok in Ha0.
  inv_bind_as H elemNodeTags Ha1. apply py_index_Ok in Ha1.
  inv_bind_as H ordered Hord.
  inv_bind_as H pts Hpts.
  inv_bind_as H pgm Hpgm.
  inv_bind_as H st Ha5. destruct st as [cells rv].
  inv_bind_as H nr Ha6.
  injection H as <-. simpl.
  destruct types as [|? types]; [done|]. injection Ha as ->.
  destruct tags as [|? tags]; [done|]. injection Ha0 as ->.
  destruct nodes as [|? nodes]; [done|]. injection Ha1 as ->.
  pose proof (mainLoop_Ok _ _ _ _ _ _ Ha5) as (-> & _ & _).
  pose proof (normalizedRegions_length _ _ Ha6) as Hlen.
  rewrite length_fmap in Hlen. rewrite regionArray_id by done.
  exists nodeTags, coords, pcoords, elemType, types, elemTags, tags,
    elemNodeTags, nodes, ordered, pgm, nr.
  by split_and!.
Qed.

(** With an element type the loop knows, a returned grid has as many
    region values as cells. *)
Lemma region_aligned_when_supported {FA : FloatArith} (m : gmshModel) (g : vtkUnstructuredGrid)
    (elemType : Z) (types : list Z) (tags nodes : list (list Z)) :
  getElements m 2%Z = (elemType :: types, tags, nodes) →
  elemType = 3%Z ∨ elemType = 2%Z →
  gmsh2VTU m = Ok g →
  ∃ nr, CellData g = [("Region"%string, nr)] ∧ length nr = length (Cells g).
Proof.
  intros He Hty Hrun.
  apply gmsh2VTU_Ok in Hrun as (nodeTags & coords & pcoords & elemType' & types'
    & elemTags & tags' & elemNodeTags & nodes' & ordered & pgm & nr
    & _ & He' & _ & _ & _ & Hloop & Hnorm & Hdata).
  rewrite He in He'. injection He' as <- <- -> ->.
  exists nr. split; [done|].
  apply normalizedRegions_length in Hnorm. rewrite length_fmap in Hnorm.
  apply mainLoop_Ok in Hloop as (_ & Hsup & _). by rewrite Hnorm, Hsup.
Qed.

(** With any other element type, a returned grid has no cell at all but
    one region value per element. *)
Lemma no_cells_when_unsupported {FA : FloatArith} (m : gmshModel) (g : vtkUnstructuredGrid)
    (elemType : Z) (types : list Z) (elemTags : list Z) (tags nodes : list (list Z)) :
  getElements m 2%Z = (elemType :: types, elemTags :: tags, nodes) →
  elemType ≠ 3%Z → elemType ≠ 2%Z →
  gmsh2VTU m = Ok g →
  Cells g = []
  ∧ ∃ nr, CellData g = [("Region"%string, nr)] ∧ length nr = length elemTags.
Proof.
  intros He H3 H2 Hrun.
  apply gmsh2VTU_Ok in Hrun as (nodeTags & coords & pcoords & elemType' & types'
    & elemTags' & tags' & elemNodeTags & nodes' & ordered & pgm & nr
    & _ & He' & _ & _ & _ & Hloop & Hnorm & Hdata).
  rewrite He in He'. injection He' as <- <- <- <- ->.
  apply mainLoop_Ok in Hloop as (_ & _ & Hunsup). split; [by apply Hunsup|].
  exists nr. split; [done|].
  apply normalizedRegions_length in Hnorm. by rewrite length_fmap in Hnorm.
Qed.

Lemma min_eq_max_iff (regionValues : list Z) (min_region max_region : Z) :
  py_min regionValues = Ok min_region →
  py_max regionValues = Ok max_region →
  min_region = max_region ↔ ∀ r, r ∈ regionValues → r = min_region.
Proof.
  intros Hmin Hmax.
  destruct (py_min_spec _ _ Hmin) as [Hmin_in Hmin_le].
  destruct (py_max_spec _ _ Hmax) as [Hmax_in Hmax_le].
  split.
  - intros Heq r Hr. specialize (Hmin_le r Hr). specialize (Hmax_le r Hr). lia.
  - intros Hall. symmetry. by apply Hall.
Qed.

Lemma normalizedRegions_min_eq_max {FA : FloatArith} (regionValues : list Z) (v : Z) :
  py_min regionValues = Ok v →
  py_max regionValues = Ok v →
  normalizedRegions regionValues = Ok (replicate (length regionValues) 1%Qc).
Proof.
  intros Hmin Hmax. unfold normalizedRegions. rewrite Hmin, Hmax. simpl.
  by rewrite decide_True.
Qed.

(** The normalisation of a constant list, when it does not raise. *)
Lemma normalizedRegions_constant {FA : FloatArith} (n : nat) (v : Z) (nr : list Qc) :
  normalizedRegions (replicate n v) = Ok nr → nr = replicate n 1%Qc.
Proof.
  intros Hnorm.
  destruct (py_min (replicate n v)) as [mn|] eqn:Hmin;
    [|by unfold normalizedRegions in Hnorm; rewrite Hmin in Hnorm].
  destruct (py_max (replicate n v)) as [mx|] eqn:Hmax;
    [|by unfold normalizedRegions in Hnorm; rewrite Hmin, Hmax in Hnorm].
  destruct (py_min_spec _ _ Hmin) as [[-> _]%elem_of_replicate _].
  destruct (py_max_spec _ _ Hmax) as [[-> _]%elem_of_replicate _].
  rewrite (normalizedRegions_min_eq_max _ _ Hmin Hmax) in Hnorm.
  injection Hnorm as <-. by rewrite length_replicate.
Qed.

(** C6.  For a non-empty list of raw region values, the minimum equals the
    maximum exactly when all values are equal (for instance when every
    element is unassigned and has the value -1), and then every normalised
    value, and so every value stored in the region array, is exactly 1. *)
Theorem degenerate_collapse {FA : FloatArith} (regionValues : list Z) (min_region max_region : Z) :
  py_min regionValues = Ok min_region →
  py_max regionValues = Ok max_region →
  (min_region = max_region ↔ ∀ r, r ∈ regionValues → r = min_region)
  ∧ (min_region = max_region →
       normalizedRegions regionValues = Ok (replicate (length regionValues) 1%Qc)
       ∧ regionArray (length regionValues) (replicate (length regionValues) 1%Qc)
         = replicate (length regionValues) 1%Qc).
Proof.
  intros Hmin Hmax. split.
  - by apply min_eq_max_iff.
  - intros <-. split.
    + by apply (normalizedRegions_min_eq_max _ min_region).
    + apply regionArray_id, length_replicate.
Qed.


(** C9.  When the mesh has no physical group, the region map is empty; and
    whenever the conversion returns a grid, the raw region value of every
    element it walked is -1 and every value of the region array is exactly
    1. *)
Theorem no_physical_groups {FA : FloatArith} (m : gmshModel) (g : vtkUnstructuredGrid) :
  getPhysicalGroups m 2%Z = [] →
  gmsh2VTU m = Ok g →
  physicalGroupMap m = Ok ∅
  ∧ ∃ elemType types elemTags tags nodes ordered,
      getElements m 2%Z = (elemType :: types, elemTags :: tags, nodes)
      ∧ mainLoop elemType elemTags ordered ∅
        = Ok (Cells g, replicate (length elemTags) (-1)%Z)
      ∧ CellData g = [("Region"%string, replicate (length elemTags) 1%Qc)].
Proof.
  intros Hgroups Hrun.
  assert (physicalGroupMap m = Ok ∅) as Hpgm
    by (unfold physicalGroupMap; by rewrite Hgroups).
  split; [exact Hpgm|].
  apply gmsh2VTU_Ok in Hrun as (nodeTags & coords & pcoords & elemType & types
    & elemTags & tags & elemNodeTags & nodes & ordered & pgm & nr
    & _ & He & _ & _ & Hpgm' & Hloop & Hnorm & Hdata).
  rewrite Hpgm in Hpgm'. injection Hpgm' as <-.
  assert (rawRegion ∅ <$> elemTags = replicate (length elemTags) (-1)%Z) as Hraw.
  { clear. induction elemTags as [|e l IH]; [done|].
    rewrite fmap_cons, IH. unfold rawRegion. by rewrite lookup_empty. }
  rewrite Hraw in Hloop, Hnorm.
  exists elemType, types, elemTags, tags, (elemNodeTags :: nodes), ordered.
  split_and!; [exact He | exact Hloop |].
  rewrite Hdata. do 2 f_equal. by apply (normalizedRegions_constant _ (-1)%Z).
Qed.


(** C10.  When the first per-type block of the 2-D elements has no element,
    the conversion never returns a grid: it raises.  When the stages before
    the normalisation go through (node tags resolved, points built, region
    map built), the exception is the [ValueError] of [min] applied to the
    empty list of region values. *)
Theorem empty_block_raises {FA : FloatArith} (m : gmshModel) (types : list Z) (tags nodes : list (list Z)) :
  getElements m 2%Z = (types, [] :: tags, nodes) →
  (∃ e, gmsh2VTU m = Raise e)
  ∧ ∀ nodeTags coords pcoords elemType types' elemNodeTags nodes' ordered pts pgm,
      getNodes m = (nodeTags, coords, pcoords) →
      types = elemType :: types' →
      nodes = elemNodeTags :: nodes' →
      orderedElemNodeTags (nodeTagToIndex nodeTags) elemNodeTags = Ok ordered →
      vtk_points nodeTags coords = Ok pts →
      physicalGroupMap m = Ok pgm →
      gmsh2VTU m = Raise ValueError.
Proof.
  intros He. split.
  - destruct (gmsh2VTU m) as [g|e] eqn:Hrun; [|by exists e].
    apply gmsh2VTU_Ok in Hrun as (nodeTags & coords & pcoords & elemType & types'
      & elemTags & tags' & elemNodeTags & nodes' & ordered & pgm & nr
      & _ & He' & _ & _ & _ & _ & Hnorm & _).
    rewrite He in He'. injection He' as _ <- _ _. discriminate Hnorm.
  - intros nodeTags coords pcoords elemType types' elemNodeTags nodes' ordered
      pts pgm Hn -> -> Hord Hpts Hpgm.
    unfold gmsh2VTU. rewrite Hn, He. simpl. rewrite Hord. simpl.
    rewrite Hpts. simpl. rewrite Hpgm. reflexivity.
Qed.


Lemma last_write_wins_witness :
  getPhysicalGroups (twoTriangles [(2, 7); (2, 4)]%Z) 2%Z = [(2, 7); (2, 4)]%Z
  ∧ reachable (twoTriangles [(2, 7); (2, 4)]%Z) (2, 7)%Z 1%Z
  ∧ reachable (twoTriangles [(2, 7); (2, 4)]%Z) (2, 4)%Z 1%Z
  ∧ ∃ pgm, physicalGroupMap (twoTriangles [(2, 7); (2, 4)]%Z) = Ok pgm
           ∧ pgm !! 1%Z = Some 4%Z.
Proof.
  set (m := twoTriangles [(2, 7); (2, 4)]%Z).
  assert (getPhysicalGroups m 2%Z = [] ++ (2, 7)%Z :: [] ++ (2, 4)%Z :: [])
    as Hgroups by reflexivity.
  assert (reachable m (2, 7)%Z 1%Z) as H1
    by (apply (bool_decide_unpack _); vm_compute; exact I).
  assert (reachable m (2, 4)%Z 1%Z) as H2
    by (apply (bool_decide_unpack _); vm_compute; exact I).
  assert (∀ g, g ∈ [] → ¬ reachable m g 1%Z) as Hafter
    by (intros g Hg; by apply elem_of_nil in Hg).
  destruct (physicalGroupMap m) as [pgm|e] eqn:Hrun;
    [|vm_compute in Hrun; discriminate Hrun].
  split_and!; [reflexivity | exact H1 | exact H2 |].
  exists pgm. split; [reflexivity|].
  exact (last_write_wins m 1%Z (2, 7)%Z (2, 4)%Z [] [] [] pgm Hgroups H1 H2 Hafter Hrun).
Defined.

(** X12.  When [getElements(2)] answers without any per-type block, as for
    a model that has no 2-D mesh, the conversion raises [IndexError] at its
    first index expression. *)
Lemma no_block_raises {FA : FloatArith} (m : gmshModel) (tags nodes : list (list Z)) :
  getElements m 2%Z = ([], tags, nodes) → gmsh2VTU m = Raise IndexError.
Proof.
  intros He. unfold gmsh2VTU. rewrite He.
  by destruct (getNodes m) as [[nodeTags coords] pcoords].
Qed.

Lemma normalizedRegions_total {FA : FloatArith} (regionValues : list Z) :
  regionValues ≠ [] → ∃ nr, normalizedRegions regionValues = Ok nr.
Proof.
  destruct regionValues as [|r rv]; [done|]. intros _.
  unfold normalizedRegions. simpl. case_decide; eauto.
Qed.

(** X19.  On a mesh that is well formed but for its element type (every node
    of the connectivity is supplied with its three coordinates, the region
    map can be built, there is at least one element), an element type other
    than 2 and 3 yields a grid: no exception, no cell, one region value per
    element. *)
Lemma unsupported_type_returns_grid {FA : FloatArith} (m : gmshModel)
    (nodeTags : list Z) (coords pcoords : list Qc)
    (elemType : Z) (types : list Z) (elemTags : list Z) (tags : list (list Z))
    (elemNodeTags : list Z) (nodes : list (list Z)) (pgm : gmap Z Z) :
  getNodes m = (nodeTags, coords, pcoords) →
  getElements m 2%Z = (elemType :: types, elemTags :: tags, elemNodeTags :: nodes) →
  elemType ≠ 3%Z → elemType ≠ 2%Z →
  (∀ t, t ∈ elemNodeTags → t ∈ nodeTags) →
  3 * length nodeTags ≤ length coords →
  physicalGroupMap m = Ok pgm →
  elemTags ≠ [] →
  ∃ g nr, gmsh2VTU m = Ok g ∧ Cells g = []
          ∧ CellData g = [("Region"%string, nr)] ∧ length nr = length elemTags.
Proof.
  intros Hn He H3 H2 Hnodes Hcoords Hpgm Hne.
  destruct (orderedElemNodeTags_Ok (nodeTagToIndex nodeTags) elemNodeTags)
    as (ordered & Hord & _).
  { intros t Ht. by apply nodeTagToIndex_is_Some, Hnodes. }
  destruct (vtk_points_loop coords (length nodeTags) 0 []) as (pts & Hpts & _);
    [done|simpl; lia|].
  destruct (normalizedRegions_total (rawRegion pgm <$> elemTags)) as [nr Hnr].
  { by destruct elemTags. }
  pose proof (normalizedRegions_length _ _ Hnr) as Hlen.
  rewrite length_fmap in Hlen.
  exists {| Points := pts; Cells := [];
            CellData := [("Region"%string, nr)] |}, nr.
  split_and!; [|done..].
  unfold gmsh2VTU. rewrite Hn, He. simpl. rewrite Hord. simpl.
  unfold vtk_points. rewrite Hpts. simpl. rewrite Hpgm. simpl.
  rewrite mainLoop_unsupported by done. simpl. rewrite Hnr. simpl.
  by rewrite regionArray_id.
Qed.

(** ** The conversion on the example meshes *)

(** C1.  On a mesh made of one second-order triangle (gmsh element type 9,
    neither 2 nor 3) the conversion raises nothing: it returns a grid
    without any cell, and with one region value for the element it did not
    convert. *)
Theorem unsupported_type_is_not_reported {FA : FloatArith} :
  ∃ g, gmsh2VTU secondOrderMesh = Ok g
       ∧ length (Points g) = 6
       ∧ Cells g = []
       ∧ CellData g = [("Region"%string, [1%Qc])].
Proof.
  destruct (gmsh2VTU secondOrderMesh) as [g|e] eqn:Hrun;
    [|vm_compute in Hrun; discriminate Hrun].
  exists g. vm_compute in Hrun. injection Hrun as <-.
  split_and!; reflexivity.
Qed.

(** C2.  On the same second-order mesh the returned grid carries a region
    array of length 1 although it has 0 cells: the array is sized by the
    number of elements, not by the number of cells inserted. *)
Theorem region_array_longer_than_cells {FA : FloatArith} :
  ∃ g nr, gmsh2VTU secondOrderMesh = Ok g
          ∧ CellData g = [("Region"%string, nr)]
          ∧ length nr = 1
          ∧ length (Cells g) = 0.
Proof.
  destruct (gmsh2VTU secondOrderMesh) as [g|e] eqn:Hrun;
    [|vm_compute in Hrun; discriminate Hrun].
  destruct (no_cells_when_unsupported secondOrderMesh g 9%Z [] [1%Z] [] [[1; 2; 3; 4; 5; 6]%Z])
    as (Hcells & nr & Hdata & Hlen); [reflexivity|lia|lia|done|].
  exists g, nr. split_and!; [reflexivity|exact Hdata|exact Hlen|by rewrite Hcells].
Qed.

(** C4, as stated, fails: on the mesh with one quadrilateral (nodes 10 11
    12 13, group 5) and one triangle (nodes 10 11 14, group 2) the
    conversion does not return a grid with two cells, whichever block comes
    first. *)
Lemma mixed_mesh_has_not_two_cells :
  ¬ ∃ (FA : FloatArith) (quadFirst : bool) (g : vtkUnstructuredGrid),
      gmsh2VTU (mixedMesh quadFirst) = Ok g ∧ length (Cells g) = 2.
Proof.
  intros (FA & quadFirst & g & Hrun & Hlen).
  destruct quadFirst; vm_compute in Hrun; injection Hrun as <-;
    simpl in Hlen; discriminate Hlen.
Qed.

(** C4, amended.  On that mesh the conversion converts the first per-type
    block only.  With the triangle block first (the order of the type
    numbers) it returns one triangle cell on the points 0 1 4; with the
    quadrilateral block first it returns one quadrilateral cell on the
    points 0 1 2 3.  Either way the region array holds the single value 1:
    the only raw value is both minimum and maximum. *)
Theorem mixed_mesh_first_block_only {FA : FloatArith} :
  (∃ g, gmsh2VTU (mixedMesh false) = Ok g
        ∧ Cells g = [(VTK_TRIANGLE, [0; 1; 4])]
        ∧ CellData g = [("Region"%string, [1%Qc])])
  ∧ (∃ g, gmsh2VTU (mixedMesh true) = Ok g
          ∧ Cells g = [(VTK_QUAD, [0; 1; 2; 3])]
          ∧ CellData g = [("Region"%string, [1%Qc])])
  ∧ physicalGroupMap (mixedMesh false) = Ok (<[1%Z := 5%Z]> (<[2%Z := 2%Z]> ∅)).
Proof.
  split_and!.
  - destruct (gmsh2VTU (mixedMesh false)) as [g|e] eqn:Hrun;
      [|vm_compute in Hrun; discriminate Hrun].
    exists g. vm_compute in Hrun. injection Hrun as <-. split_and!; reflexivity.
  - destruct (gmsh2VTU (mixedMesh true)) as [g|e] eqn:Hrun;
      [|vm_compute in Hrun; discriminate Hrun].
    exists g. vm_compute in Hrun. injection Hrun as <-. split_and!; reflexivity.
  - vm_compute. reflexivity.
Qed.

(** ** Cell assembler: the cells of a supported element type *)

Lemma cellPointIds_prefix (n : nat) (nodes : list nat) (k : nat) :
  k ≤ n → k ≤ length nodes →
  foldM (λ ids j, node_id ← py_index nodes j; Ok (SetId ids j node_id))
        (replicate n 0) (seq 0 k)
  = Ok (take k nodes ++ replicate (n - k) 0).
Proof.
  induction k as [|k IH]; intros Hn Hlen.
  - simpl. by rewrite Nat.sub_0_r.
  - rewrite seq_S, foldM_app, IH by lia. simpl.
    destruct (py_index_lt nodes k) as (x & -> & Hx); [lia|]. simpl.
    unfold SetId. f_equal.
    rewrite insert_app_r_alt by (rewrite length_take; lia).
    rewrite length_take, Nat.min_l, Nat.sub_diag by lia.
    replace (n - k) with (S (n - S k)) by lia. simpl.
    rewrite (take_S_r _ _ _ Hx). by rewrite <- app_assoc.
Qed.

(** The point ids of a cell are the first [n] of the nodes given to it. *)
Lemma cellPointIds_Ok (n : nat) (nodes : list nat) :
  n ≤ length nodes → cellPointIds n nodes = Ok (take n nodes).
Proof.
  intros Hlen. unfold cellPointIds.
  rewrite cellPointIds_prefix by lia.
  by rewrite Nat.sub_diag, app_nil_r.
Qed.

(** With fewer than [n] nodes, reading the missing one raises. *)
Lemma cellPointIds_short (n : nat) (nodes : list nat) :
  length nodes < n → cellPointIds n nodes = Raise IndexError.
Proof.
  intros Hlen. unfold cellPointIds.
  replace n with (length nodes + S (n - S (length nodes))) at 2 by lia.
  rewrite seq_app, foldM_app, cellPointIds_prefix by lia. simpl.
  unfold py_index. by rewrite lookup_ge_None_2 by lia.
Qed.

Lemma py_slice_block (ordered : list nat) (k i : nat) :
  py_slice ordered (k * i) (k * (i + 1)) = take k (drop (k * i) ordered).
Proof. unfold py_slice. f_equal. lia. Qed.

Lemma insertCell_Ok (elemType : Z) (ct : cellType) (k : nat) (ordered : list nat)
    (cells : list (cellType * list nat)) (i : nat) :
  cellKind elemType = Some (ct, k) →
  k * (i + 1) ≤ length ordered →
  insertCell elemType ordered cells i
  = Ok (cells ++ [(ct, take k (drop (k * i) ordered))]).
Proof.
  unfold cellKind, insertCell. intros Hkind Hlen.
  repeat case_decide; simplify_eq; rewrite py_slice_block.
  - rewrite cellPointIds_Ok by (rewrite length_take, length_drop; lia).
    simpl. by rewrite take_take, Nat.min_id.
  - rewrite cellPointIds_Ok by (rewrite length_take, length_drop; lia).
    simpl. by rewrite take_take, Nat.min_id.
Qed.

Lemma insertCell_short (elemType : Z) (ct : cellType) (k : nat) (ordered : list nat)
    (cells : list (cellType * list nat)) (i : nat) :
  cellKind elemType = Some (ct, k) →
  length ordered < k * (i + 1) →
  insertCell elemType ordered cells i = Raise IndexError.
Proof.
  unfold cellKind, insertCell. intros Hkind Hlen.
  repeat case_decide; simplify_eq; rewrite py_slice_block.
  - by rewrite cellPointIds_short by (rewrite length_take, length_drop; lia).
  - by rewrite cellPointIds_short by (rewrite length_take, length_drop; lia).
Qed.

Lemma cellsOf_S (ct : cellType) (k : nat) (ordered : list nat) (n : nat) :
  cellsOf ct k ordered (S n)
  = cellsOf ct k ordered n ++ [(ct, take k (drop (k * n) ordered))].
Proof. unfold cellsOf. by rewrite seq_S, fmap_app. Qed.

Lemma mainLoop_supported_prefix (elemType : Z) (ct : cellType) (k : nat)
    (elemTags : list Z) (ordered : list nat) (pgm : gmap Z Z) (n : nat) :
  cellKind elemType = Some (ct, k) →
  n ≤ length elemTags →
  k * n ≤ length ordered →
  foldM (loopBody elemType elemTags ordered pgm) ([], []) (seq 0 n)
  = Ok (cellsOf ct k ordered n, rawRegion pgm <$> take n elemTags).
Proof.
  intros Hkind. induction n as [|n IH]; intros Hn Hlen; [by rewrite take_0|].
  rewrite seq_S, foldM_app, IH by lia. simpl.
  rewrite (insertCell_Ok _ ct k) by (done || lia). simpl.
  destruct (py_index_lt elemTags n) as (elemTag & -> & Htag); [lia|]. simpl.
  by rewrite cellsOf_S, (take_S_r _ _ _ Htag), fmap_app.
Qed.

(** With enough translated connectivity the loop inserts, for each element
    in order, the cell made of its [k] consecutive entries. *)
Lemma mainLoop_supported (elemType : Z) (ct : cellType) (k : nat)
    (elemTags : list Z) (ordered : list nat) (pgm : gmap Z Z) :
  cellKind elemType = Some (ct, k) →
  k * length elemTags ≤ length ordered →
  mainLoop elemType elemTags ordered pgm
  = Ok (cellsOf ct k ordered (length elemTags), rawRegion pgm <$> elemTags).
Proof.
  intros Hkind Hlen. unfold mainLoop.
  rewrite (mainLoop_supported_prefix _ ct k) by done.
  by rewrite firstn_all.
Qed.

(** With too little of it the loop raises at the first element it cannot
    fill. *)
Lemma mainLoop_short (elemType : Z) (ct : cellType) (k : nat)
    (elemTags : list Z) (ordered : list nat) (pgm : gmap Z Z) :
  cellKind elemType = Some (ct, k) →
  length ordered < k * length elemTags →
  mainLoop elemType elemTags ordered pgm = Raise IndexError.
Proof.
  intros Hkind Hlen. unfold mainLoop.
  assert (0 < k) as Hk by (unfold cellKind in Hkind; repeat case_decide; simplify_eq; lia).
  set (n := length ordered / k).
  assert (k * n ≤ length ordered < k * (n + 1)) as [Hlo Hhi].
  { pose proof (Nat.div_mod_eq (length ordered) k) as Hdm.
    pose proof (Nat.mod_upper_bound (length ordered) k) as Hmod.
    subst n. lia. }
  assert (n < length elemTags) as Hn by nia.
  replace (length elemTags) with (n + S (length elemTags - S n)) by lia.
  rewrite seq_app, foldM_app, (mainLoop_supported_prefix _ ct k) by (done || lia).
  simpl. by rewrite (insertCell_short _ ct k) by (done || lia).
Qed.

(** ** Node indexer: duplicates and bounds *)

Lemma nodeTagToIndex_from_Some (l : list Z) (d : gmap Z nat) (n p : nat) (t : Z) :
  nodeTagToIndex_from d n l !! t = Some p ↔
  (∃ i, l !! i = Some t ∧ p = n + i ∧ ∀ j, i < j → l !! j ≠ Some t)
  ∨ ((t ∉ l) ∧ d !! t = Some p).
Proof.
  revert d n. induction l as [|a l IH]; intros d n.
  - simpl. split.
    + intros Hd. right. split; [apply not_elem_of_nil|done].
    + intros [(i & Hi & _)|[_ Hd]]; [done|done].
  - rewrite nodeTagToIndex_from_cons, IH. split.
    + intros [(i & Hi & -> & Hlast)|[Hnin Hd]].
      * left. exists (S i). split_and!; [done|lia|].
        intros [|j] Hj; [lia|]. simpl. apply Hlast. lia.
      * destruct (decide (a = t)) as [->|Hne].
        -- rewrite lookup_insert_eq in Hd. injection Hd as <-.
           left. exists 0. split_and!; [done|lia|].
           intros [|j] Hj; [lia|]. simpl. intros Hjt. apply Hnin.
           apply list_elem_of_lookup. eauto.
        -- rewrite lookup_insert_ne in Hd by done. right.
           split; [|done]. rewrite not_elem_of_cons. split; [congruence|done].
    + intros [(i & Hi & -> & Hlast)|[Hnin Hd]].
      * destruct i as [|i]; simpl in Hi.
        -- injection Hi as ->. right. split.
           ++ intros [j Hj]%list_elem_of_lookup. apply (Hlast (S j)); [lia|done].
           ++ rewrite lookup_insert_eq. f_equal. lia.
        -- left. exists i. split_and!; [done|lia|].
           intros j Hj. apply (Hlast (S j)). lia.
      * apply not_elem_of_cons in Hnin as [Hne Hnin]. right.
        split; [done|]. by rewrite lookup_insert_ne.
Qed.

Lemma nodeTagToIndex_Some (nodeTags : list Z) (t : Z) (i : nat) :
  nodeTagToIndex nodeTags !! t = Some i ↔
  nodeTags !! i = Some t ∧ ∀ j, i < j → nodeTags !! j ≠ Some t.
Proof.
  unfold nodeTagToIndex. rewrite nodeTagToIndex_from_Some. split.
  - intros [(i' & Hi & -> & Hlast)|[_ Hd]]; [done|by rewrite lookup_empty in Hd].
  - intros [Hi Hlast]. left. by exists i.
Qed.

Lemma foldM_InsertNextPoint_length (coords : list Qc) (l : list nat) :
  ∀ pts pts', foldM (InsertNextPoint coords) pts l = Ok pts' →
  length pts' = length pts + length l.
Proof.
  induction l as [|i l IH]; intros pts pts' Hrun; simpl in Hrun.
  - injection Hrun as <-. simpl. lia.
  - inv_bind Hrun. apply IH in Hrun. rewrite Hrun.
    unfold InsertNextPoint in Ha.
    inv_bind_as Ha x Hx. inv_bind_as Ha y Hy. inv_bind_as Ha z Hz.
    injection Ha as <-. rewrite length_app. simpl. lia.
Qed.

Lemma vtk_points_length (nodeTags : list Z) (coords : list Qc)
    (pts : list (Qc * Qc * Qc)) :
  vtk_points nodeTags coords = Ok pts → length pts = length nodeTags.
Proof.
  intros Hrun. apply foldM_InsertNextPoint_length in Hrun.
  by rewrite length_seq in Hrun.
Qed.

Lemma InsertNextPoint_short (coords : list Qc) (pts : list (Qc * Qc * Qc)) (i : nat) :
  length coords < 3 * i + 3 → InsertNextPoint coords pts i = Raise IndexError.
Proof.
  intros Hlen. unfold InsertNextPoint, py_index.
  destruct (coords !! (3 * i)) as [x|] eqn:Hx;
    [cbn [mbind result_bind]|reflexivity].
  destruct (coords !! (3 * i + 1)) as [y|] eqn:Hy;
    [cbn [mbind result_bind]|reflexivity].
  by rewrite lookup_ge_None_2 by lia.
Qed.

Lemma vtk_points_short (nodeTags : list Z) (coords : list Qc) :
  length coords < 3 * length nodeTags →
  vtk_points nodeTags coords = Raise IndexError.
Proof.
  intros Hlen. unfold vtk_points.
  set (q := length coords / 3).
  assert (3 * q ≤ length coords < 3 * q + 3) as [Hlo Hhi].
  { pose proof (Nat.div_mod_eq (length coords) 3) as Hdm.
    pose proof (Nat.mod_upper_bound (length coords) 3) as Hmod.
    subst q. lia. }
  replace (length nodeTags) with (q + S (length nodeTags - S q)) by lia.
  rewrite seq_app, foldM_app.
  destruct (vtk_points_loop coords q 0 []) as (pts & -> & _); [done|simpl; lia|].
  simpl. by rewrite InsertNextPoint_short by lia.
Qed.

(** X5.  The point loop fails, with [IndexError], exactly when there are
    fewer than three coordinates per node identifier; coordinates beyond
    that are never read. *)
Theorem vtk_points_raises_iff (nodeTags : list Z) (coords : list Qc) :
  (vtk_points nodeTags coords = Raise IndexError
     ↔ length coords < 3 * length nodeTags)
  ∧ (∀ e, vtk_points nodeTags coords = Raise e → e = IndexError)
  ∧ (∀ extra pts, vtk_points nodeTags coords = Ok pts →
       vtk_points nodeTags (coords ++ extra) = Ok pts).
Proof.
  split_and!.
  - split; [|apply vtk_points_short].
    intros Hrun. destruct (decide (length coords < 3 * length nodeTags)); [done|].
    destruct (vtk_points_loop coords (length nodeTags) 0 []) as (pts & Hpts & _);
      [done|simpl; lia|].
    unfold vtk_points in Hrun. congruence.
  - intros e Hrun. destruct (decide (length coords < 3 * length nodeTags)) as [Hs|Hs].
    + rewrite vtk_points_short in Hrun by done. by injection Hrun as <-.
    + destruct (vtk_points_loop coords (length nodeTags) 0 []) as (pts & Hpts & _);
        [done|simpl; lia|].
      unfold vtk_points in Hrun. congruence.
  - intros extra pts Hrun.
    assert (¬ length coords < 3 * length nodeTags) as Hlen
      by (intros Hs; by rewrite vtk_points_short in Hrun).
    destruct (vtk_points_loop coords (length nodeTags) 0 [])
      as (pts1 & Hpts1 & Hl1 & _ & Hat1); [done|simpl; lia|].
    destruct (vtk_points_loop (coords ++ extra) (length nodeTags) 0 [])
      as (pts2 & Hpts2 & Hl2 & _ & Hat2); [done|rewrite length_app; simpl; lia|].
    unfold vtk_points in *. rewrite Hpts2. rewrite Hpts1 in Hrun.
    injection Hrun as <-. f_equal.
    apply list_eq_same_length with (length nodeTags); [lia|lia|].
    intros i p2 p1 Hi Hp2 Hp1.
    destruct (Hat1 i) as (x & y & z & Hx & Hy & Hz & Hp); [lia|].
    destruct (Hat2 i) as (x' & y' & z' & Hx' & Hy' & Hz' & Hp'); [lia|].
    rewrite lookup_app_l in Hx', Hy', Hz' by lia.
    congruence.
Qed.

(** X6.  When a node identifier occurs several times, the index keeps the
    position of its last occurrence: every supplied identifier has a
    position, that position holds the identifier, and no later position
    does. *)
Theorem duplicate_tag_last_position (nodeTags : list Z) (t : Z) :
  t ∈ nodeTags →
  ∃ i, nodeTagToIndex nodeTags !! t = Some i
       ∧ nodeTags !! i = Some t
       ∧ ∀ j, nodeTags !! j = Some t → j ≤ i.
Proof.
  intros Ht. apply nodeTagToIndex_is_Some in Ht as [i Hi].
  exists i. split; [done|].
  apply nodeTagToIndex_Some in Hi as [Hi Hlast]. split; [done|].
  intros j Hj. destruct (decide (j ≤ i)) as [|Hgt]; [done|].
  destruct (Hlast j); [lia|done].
Qed.

Lemma orderedElemNodeTags_Forall2 (idx : gmap Z nat) (elemNodeTags : list Z)
    (ordered : list nat) :
  orderedElemNodeTags idx elemNodeTags = Ok ordered →
  Forall2 (λ t p, idx !! t = Some p) elemNodeTags ordered.
Proof.
  revert ordered. induction elemNodeTags as [|t l IH]; intros ordered Hrun;
    simpl in Hrun.
  - injection Hrun as <-. constructor.
  - inv_bind_as Hrun p Hp. inv_bind_as Hrun rest Hrest. injection Hrun as <-.
    constructor; [|by apply IH].
    unfold py_getitem in Hp. by destruct (idx !! t); simplify_eq.
Qed.

Lemma cellsOf_lookup (ct : cellType) (k : nat) (ordered : list nat) (n i : nat) :
  i < n → cellsOf ct k ordered n !! i = Some (ct, take k (drop (k * i) ordered)).
Proof.
  intros Hi. unfold cellsOf. rewrite list_lookup_fmap.
  by rewrite lookup_seq_lt.
Qed.

Lemma cellKind_pos (elemType : Z) (ct : cellType) (k : nat) :
  cellKind elemType = Some (ct, k) → 0 < k.
Proof. unfold cellKind. repeat case_decide; intros; simplify_eq; lia. Qed.

(** The cells of a returned grid of a supported type. *)
Lemma gmsh2VTU_cells {FA : FloatArith} (m : gmshModel) (g : vtkUnstructuredGrid)
    (nodeTags : list Z) (coords pcoords : list Qc)
    (elemType : Z) (types : list Z) (elemTags : list Z) (tags : list (list Z))
    (elemNodeTags : list Z) (nodes : list (list Z)) (ct : cellType) (k : nat) :
  getNodes m = (nodeTags, coords, pcoords) →
  getElements m 2%Z = (elemType :: types, elemTags :: tags, elemNodeTags :: nodes) →
  cellKind elemType = Some (ct, k) →
  gmsh2VTU m = Ok g →
  ∃ ordered,
    Forall2 (λ t p, nodeTagToIndex nodeTags !! t = Some p) elemNodeTags ordered
    ∧ k * length elemTags ≤ length ordered
    ∧ Cells g = cellsOf ct k ordered (length elemTags).
Proof.
  intros Hn He Hkind Hrun.
  apply gmsh2VTU_Ok in Hrun as (nodeTags' & coords' & pcoords' & elemType' & types'
    & elemTags' & tags' & elemNodeTags' & nodes' & ordered & pgm & nr
    & Hn' & He' & Hord & _ & _ & Hloop & _ & _).
  rewrite Hn in Hn'. injection Hn' as <- <- <-.
  rewrite He in He'. injection He' as <- <- <- <- <- <-.
  exists ordered. split; [by apply orderedElemNodeTags_Forall2|].
  destruct (decide (k * length elemTags ≤ length ordered)) as [Hlen|Hlen].
  - rewrite (mainLoop_supported _ ct k) in Hloop by done.
    by injection Hloop as <-.
  - by rewrite (mainLoop_short _ ct k) in Hloop by (done || lia).
Qed.

(** X2.  In a grid returned for triangles or quadrilaterals, the [i]-th cell
    has the cell type of the element type and exactly 3 or 4 point ids; its
    [j]-th id is the position that the node index gives to the [j]-th node
    tag of the [i]-th element, so the node order within an element is kept. *)
Theorem cells_translate_connectivity {FA : FloatArith} (m : gmshModel)
    (g : vtkUnstructuredGrid) (nodeTags : list Z) (coords pcoords : list Qc)
    (elemType : Z) (types : list Z) (elemTags : list Z) (tags : list (list Z))
    (elemNodeTags : list Z) (nodes : list (list Z)) (ct : cellType) (k : nat) :
  getNodes m = (nodeTags, coords, pcoords) →
  getElements m 2%Z = (elemType :: types, elemTags :: tags, elemNodeTags :: nodes) →
  cellKind elemType = Some (ct, k) →
  gmsh2VTU m = Ok g →
  length (Cells g) = length elemTags
  ∧ ∀ i, i < length elemTags →
      ∃ ids, Cells g !! i = Some (ct, ids) ∧ length ids = k
        ∧ ∀ j, j < k →
            ∃ t p, elemNodeTags !! (k * i + j) = Some t
                   ∧ nodeTagToIndex nodeTags !! t = Some p
                   ∧ ids !! j = Some p.
Proof.
  intros Hn He Hkind Hrun.
  destruct (gmsh2VTU_cells m g _ _ _ _ _ _ _ _ _ ct k Hn He Hkind Hrun)
    as (ordered & Hall & Hlen & ->).
  split; [unfold cellsOf; by rewrite length_fmap, length_seq|].
  intros i Hi. exists (take k (drop (k * i) ordered)).
  assert (k * (i + 1) ≤ length ordered) as Hblock by nia.
  split_and!.
  - by apply cellsOf_lookup.
  - rewrite length_take, length_drop. lia.
  - intros j Hj.
    destruct (lookup_lt_is_Some_2 ordered (k * i + j)) as [p Hp]; [lia|].
    destruct (Forall2_lookup_r _ _ _ _ _ Hall Hp) as (t & Ht & Hidx).
    exists t, p. split_and!; [done|done|].
    by rewrite lookup_take_lt, lookup_drop.
Qed.

(** X3.  Every point id of every cell of a returned grid is the position of
    a point of that grid. *)
Theorem cell_ids_are_point_indices {FA : FloatArith} (m : gmshModel)
    (g : vtkUnstructuredGrid) (ct : cellType) (ids : list nat) (id : nat) :
  gmsh2VTU m = Ok g →
  (ct, ids) ∈ Cells g → id ∈ ids → id < length (Points g).
Proof.
  intros Hrun Hcell Hid.
  pose proof Hrun as Hinv.
  apply gmsh2VTU_Ok in Hinv as (nodeTags & coords & pcoords & elemType & types
    & elemTags & tags & elemNodeTags & nodes & ordered & pgm & nr
    & Hn & He & Hord & Hpts & _ & Hloop & _ & _).
  rewrite (vtk_points_length _ _ _ Hpts).
  destruct (cellKind elemType) as [[ct' k]|] eqn:Hkind.
  - destruct (gmsh2VTU_cells m g _ _ _ _ _ _ _ _ _ ct' k Hn He Hkind Hrun)
      as (ordered' & Hall & Hlen & Hcells).
    rewrite Hcells in Hcell. unfold cellsOf in Hcell.
    apply list_elem_of_fmap in Hcell as (i & [= -> ->] & _).
    apply list_elem_of_lookup in Hid as [j Hj].
    apply lookup_take_Some in Hj as [Hj _]. rewrite lookup_drop in Hj.
    destruct (Forall2_lookup_r _ _ _ _ _ Hall Hj) as (t & _ & Hidx).
    apply nodeTagToIndex_Some in Hidx as [Hidx _].
    by apply lookup_lt_Some in Hidx.
  - apply mainLoop_Ok in Hloop as (_ & _ & Hnone).
    rewrite Hnone in Hcell; [by apply elem_of_nil in Hcell| |];
      unfold cellKind in Hkind; repeat case_decide; congruence.
Qed.

(** X1.  A mesh of triangles or of quadrilaterals whose connectivity has 3
    or 4 node tags per element, all of them supplied with three coordinates
    each, and whose region map can be built, is converted when it has at
    least one element: the grid has one point per node, one cell and one
    region value per element. *)
Theorem wellformed_mesh_converts {FA : FloatArith} (m : gmshModel)
    (nodeTags : list Z) (coords pcoords : list Qc)
    (elemType : Z) (types : list Z) (elemTags : list Z) (tags : list (list Z))
    (elemNodeTags : list Z) (nodes : list (list Z)) (ct : cellType) (k : nat)
    (pgm : gmap Z Z) :
  getNodes m = (nodeTags, coords, pcoords) →
  getElements m 2%Z = (elemType :: types, elemTags :: tags, elemNodeTags :: nodes) →
  cellKind elemType = Some (ct, k) →
  (∀ t, t ∈ elemNodeTags → t ∈ nodeTags) →
  k * length elemTags ≤ length elemNodeTags →
  3 * length nodeTags ≤ length coords →
  physicalGroupMap m = Ok pgm →
  elemTags ≠ [] →
  ∃ g nr, gmsh2VTU m = Ok g
    ∧ length (Points g) = length nodeTags
    ∧ length (Cells g) = length elemTags
    ∧ CellData g = [("Region"%string, nr)]
    ∧ length nr = length elemTags.
Proof.
  intros Hn He Hkind Hnodes Hconn Hcoords Hpgm Hne.
  destruct (orderedElemNodeTags_Ok (nodeTagToIndex nodeTags) elemNodeTags)
    as (ordered & Hord & Hlen).
  { intros t Ht. by apply nodeTagToIndex_is_Some, Hnodes. }
  destruct (vtk_points_loop coords (length nodeTags) 0 [])
    as (pts & Hpts & Hptslen & _); [done|simpl; lia|].
  destruct (normalizedRegions_total (rawRegion pgm <$> elemTags)) as [nr Hnr].
  { by destruct elemTags. }
  pose proof (normalizedRegions_length _ _ Hnr) as Hnrlen.
  rewrite length_fmap in Hnrlen.
  exists {| Points := pts; Cells := cellsOf ct k ordered (length elemTags);
            CellData := [("Region"%string, nr)] |}, nr.
  split_and!; [|done| |done|done].
  - unfold gmsh2VTU. rewrite Hn, He. simpl. rewrite Hord. simpl.
    unfold vtk_points. rewrite Hpts. simpl. rewrite Hpgm. simpl.
    rewrite (mainLoop_supported _ ct k) by (done || lia). simpl.
    rewrite Hnr. simpl. by rewrite regionArray_id.
  - simpl. unfold cellsOf. by rewrite length_fmap, length_seq.
Qed.

(** X4.  When the connectivity of a mesh of triangles or quadrilaterals has
    fewer than 3 or 4 node tags per element, and everything before the cell
    loop goes through, the conversion raises [IndexError]. *)
Theorem short_connectivity_raises {FA : FloatArith} (m : gmshModel)
    (nodeTags : list Z) (coords pcoords : list Qc)
    (elemType : Z) (types : list Z) (elemTags : list Z) (tags : list (list Z))
    (elemNodeTags : list Z) (nodes : list (list Z)) (ct : cellType) (k : nat)
    (pgm : gmap Z Z) :
  getNodes m = (nodeTags, coords, pcoords) →
  getElements m 2%Z = (elemType :: types, elemTags :: tags, elemNodeTags :: nodes) →
  cellKind elemType = Some (ct, k) →
  (∀ t, t ∈ elemNodeTags → t ∈ nodeTags) →
  length elemNodeTags < k * length elemTags →
  3 * length nodeTags ≤ length coords →
  physicalGroupMap m = Ok pgm →
  gmsh2VTU m = Raise IndexError.
Proof.
  intros Hn He Hkind Hnodes Hconn Hcoords Hpgm.
  destruct (orderedElemNodeTags_Ok (nodeTagToIndex nodeTags) elemNodeTags)
    as (ordered & Hord & Hlen).
  { intros t Ht. by apply nodeTagToIndex_is_Some, Hnodes. }
  destruct (vtk_points_loop coords (length nodeTags) 0 [])
    as (pts & Hpts & _); [done|simpl; lia|].
  unfold gmsh2VTU. rewrite Hn, He. simpl. rewrite Hord. simpl.
  unfold vtk_points. rewrite Hpts. simpl. rewrite Hpgm. simpl.
  by rewrite (mainLoop_short _ ct k) by (done || lia).
Qed.

(** ** Region projector: what the region map holds *)

Lemma foldM_Ok_or_raise {A S : Type} (f : S → A → result S) (e : exn) (l : list A) :
  (∀ s x, x ∈ l → (∃ s', f s x = Ok s') ∨ f s x = Raise e) →
  ∀ s, (∃ s', foldM f s l = Ok s') ∨ foldM f s l = Raise e.
Proof.
  induction l as [|x l IH]; intros Hstep s; simpl; [eauto|].
  destruct (Hstep s x) as [[s' ->]| ->]; [apply list_elem_of_here| |by right].
  simpl. apply IH. intros s0 y Hy. apply Hstep. by apply list_elem_of_further.
Qed.

Lemma foldM_raise {A S : Type} (f : S → A → result S) (e : exn) (l : list A) (x : A) :
  (∀ s y, y ∈ l → (∃ s', f s y = Ok s') ∨ f s y = Raise e) →
  x ∈ l → (∀ s, f s x = Raise e) →
  ∀ s, foldM f s l = Raise e.
Proof.
  induction l as [|y l IH]; intros Hstep Hx Hraise s; [by apply elem_of_nil in Hx|].
  simpl. apply elem_of_cons in Hx as [->|Hx]; [by rewrite Hraise|].
  destruct (Hstep s y) as [[s' ->]| ->]; [apply list_elem_of_here| |done].
  simpl. apply IH; [|done..].
  intros s0 z Hz. apply Hstep. by apply list_elem_of_further.
Qed.

Lemma foldM_all_Ok {A S : Type} (f : S → A → result S) (l : list A) :
  (∀ s x, x ∈ l → ∃ s', f s x = Ok s') →
  ∀ s, ∃ s', foldM f s l = Ok s'.
Proof.
  induction l as [|x l IH]; intros Hstep s; simpl; [eauto|].
  destruct (Hstep s x) as [s' ->]; [apply list_elem_of_here|].
  simpl. apply IH. intros s0 y Hy. apply Hstep. by apply list_elem_of_further.
Qed.

Lemma assignEntity_cases (m : gmshModel) (dim tag : Z) (pgm : gmap Z Z) (ent : Z) :
  ((getElementsOfEntity m dim ent).1.2 ≠ [] ∧ ∃ pgm', assignEntity m dim tag pgm ent = Ok pgm')
  ∨ ((getElementsOfEntity m dim ent).1.2 = []
     ∧ assignEntity m dim tag pgm ent = Raise IndexError).
Proof.
  unfold assignEntity.
  destruct (getElementsOfEntity m dim ent) as [[types tags] nodes]. simpl.
  destruct tags as [|blk tags]; [by right|].
  left. split; [done|]. simpl. eauto.
Qed.

Lemma assignGroup_Ok_or_raise (m : gmshModel) (pgm : gmap Z Z) (g : Z * Z) :
  (∃ pgm', assignGroup m pgm g = Ok pgm') ∨ assignGroup m pgm g = Raise IndexError.
Proof.
  destruct g as [dim tag]. unfold assignGroup.
  apply foldM_Ok_or_raise. intros s ent _.
  destruct (assignEntity_cases m dim tag s ent) as [[_ ?]|[_ ?]]; [by left|by right].
Qed.

(** X8.  Building the region map raises, with [IndexError], exactly when
    some entity of some physical group has no element block at all;
    otherwise it returns a map. *)
Theorem physicalGroupMap_raises_iff (m : gmshModel) :
  (physicalGroupMap m = Raise IndexError ↔
     ∃ g ent, g ∈ getPhysicalGroups m 2%Z
              ∧ ent ∈ getEntitiesForPhysicalGroup m g.1 g.2
              ∧ (getElementsOfEntity m g.1 ent).1.2 = [])
  ∧ ((∃ pgm, physicalGroupMap m = Ok pgm) ∨ physicalGroupMap m = Raise IndexError).
Proof.
  assert ((∃ pgm, physicalGroupMap m = Ok pgm) ∨ physicalGroupMap m = Raise IndexError)
    as Hcases.
  { unfold physicalGroupMap. apply foldM_Ok_or_raise.
    intros s g _. apply assignGroup_Ok_or_raise. }
  split; [|exact Hcases]. split.
  - intros Hraise.
    destruct (decide (Exists (λ g, Exists
        (λ ent, (getElementsOfEntity m g.1 ent).1.2 = [])
        (getEntitiesForPhysicalGroup m g.1 g.2)) (getPhysicalGroups m 2%Z)))
      as [Hex|Hno].
    + apply Exists_exists in Hex as (g & Hg & Hex).
      apply Exists_exists in Hex as (ent & Hent & Hempty). by exists g, ent.
    + exfalso. unfold physicalGroupMap in Hraise.
      destruct (foldM_all_Ok (assignGroup m) (getPhysicalGroups m 2%Z)) with (s := (∅ : gmap Z Z))
        as [pgm Hpgm]; [|congruence].
      intros s [dim tag] Hg. unfold assignGroup. apply foldM_all_Ok.
      intros s' ent Hent.
      destruct (assignEntity_cases m dim tag s' ent) as [[_ ?]|[Hempty _]]; [done|].
      exfalso. apply Hno. apply Exists_exists. exists (dim, tag). split; [done|].
      apply Exists_exists. by exists ent.
  - intros ([dim tag] & ent & Hg & Hent & Hempty). simpl in *.
    unfold physicalGroupMap.
    apply (foldM_raise _ _ _ (dim, tag)); [|done|].
    + intros s g _. apply assignGroup_Ok_or_raise.
    + intros s. unfold assignGroup. apply (foldM_raise _ _ _ ent); [|done|].
      * intros s' ent' _.
        destruct (assignEntity_cases m dim tag s' ent') as [[_ ?]|[_ ?]];
          [by left|by right].
      * intros s'.
        by destruct (assignEntity_cases m dim tag s' ent) as [[? _]|[_ ?]].
Qed.

Lemma assignGroups_lookup_Some (m : gmshModel) (e t : Z) (groups : list (Z * Z)) :
  ∀ pgm pgm', foldM (assignGroup m) pgm groups = Ok pgm' →
  pgm' !! e = Some t →
  (∃ g, g ∈ groups ∧ reachable m g e ∧ g.2 = t) ∨ pgm !! e = Some t.
Proof.
  induction groups as [|g groups IH]; intros pgm pgm' Hrun Hlook; simpl in Hrun.
  - injection Hrun as <-. by right.
  - inv_bind Hrun.
    destruct (IH _ _ Hrun Hlook) as [(g' & Hin & Hreach & Htag)|Ha'].
    + left. exists g'. split; [by apply list_elem_of_further|done].
    + destruct (assignGroup_lookup m e g pgm a Ha) as [Hown Hnot].
      destruct (decide (reachable m g e)) as [Hr|Hr].
      * left. exists g. split_and!; [apply list_elem_of_here|done|].
        rewrite (Hown Hr) in Ha'. by injection Ha'.
      * right. by rewrite <- (Hnot Hr).
Qed.

Lemma assignGroups_lookup_is_Some (m : gmshModel) (e : Z) (groups : list (Z * Z)) :
  ∀ pgm pgm', foldM (assignGroup m) pgm groups = Ok pgm' →
  (∃ g, g ∈ groups ∧ reachable m g e) ∨ is_Some (pgm !! e) →
  is_Some (pgm' !! e).
Proof.
  induction groups as [|g groups IH]; intros pgm pgm' Hrun Hsrc; simpl in Hrun.
  - injection Hrun as <-. destruct Hsrc as [(g & Hin & _)|?]; [|done].
    by apply elem_of_nil in Hin.
  - inv_bind Hrun. apply (IH _ _ Hrun).
    destruct (assignGroup_lookup m e g pgm a Ha) as [Hown Hnot].
    destruct (decide (reachable m g e)) as [Hr|Hr].
    + right. rewrite (Hown Hr). eauto.
    + destruct Hsrc as [(g' & Hin & Hreach)|Hsome].
      * apply elem_of_cons in Hin as [->|Hin]; [done|]. left. eauto.
      * right. by rewrite (Hnot Hr).
Qed.

(** X7.  The region map holds an element exactly when some physical group
    reaches it, and the tag it holds is the tag of a group that reaches it;
    an element that no group reaches gets the raw region value -1. *)
Theorem region_map_holds_reachable (m : gmshModel) (pgm : gmap Z Z) (e : Z) :
  physicalGroupMap m = Ok pgm →
  (is_Some (pgm !! e) ↔ ∃ g, g ∈ getPhysicalGroups m 2%Z ∧ reachable m g e)
  ∧ (∀ t, pgm !! e = Some t →
       ∃ g, g ∈ getPhysicalGroups m 2%Z ∧ reachable m g e ∧ g.2 = t)
  ∧ ((∀ g, g ∈ getPhysicalGroups m 2%Z → ¬ reachable m g e) →
       rawRegion pgm e = (-1)%Z).
Proof.
  intros Hrun. unfold physicalGroupMap in Hrun.
  assert (∀ t, pgm !! e = Some t →
       ∃ g, g ∈ getPhysicalGroups m 2%Z ∧ reachable m g e ∧ g.2 = t) as Hsound.
  { intros t Ht.
    destruct (assignGroups_lookup_Some m e t _ _ _ Hrun Ht) as [?|Hempty]; [done|].
    by rewrite lookup_empty in Hempty. }
  split_and!.
  - split.
    + intros [t Ht]. destruct (Hsound t Ht) as (g & Hin & Hreach & _). eauto.
    + intros Hex. apply (assignGroups_lookup_is_Some m e _ _ _ Hrun). by left.
  - exact Hsound.
  - intros Hnone. unfold rawRegion.
    destruct (pgm !! e) as [t|] eqn:Ht; [|done].
    destruct (Hsound t eq_refl) as (g & Hin & Hreach & _).
    by destruct (Hnone g Hin).
Qed.

(** ** Region projector: range and order of the normalised values *)

Lemma normalizedRegions_unit_interval {FA : FloatArith} (regionValues : list Z)
    (nr : list Qc) (v : Qc) :
  normalizedRegions regionValues = Ok nr → v ∈ nr → (0 ≤ v ≤ 1)%Qc.
Proof.
  unfold normalizedRegions. intros Hrun Hv.
  inv_bind_as Hrun mn Hmin. inv_bind_as Hrun mx Hmax.
  destruct (py_min_spec _ _ Hmin) as [_ Hmin_le].
  destruct (py_max_spec _ _ Hmax) as [_ Hmax_le].
  case_decide as Heq; injection Hrun as <-.
  - apply elem_of_replicate in Hv as [-> _]. split; [done|apply Qcle_refl].
  - apply list_elem_of_fmap in Hv as (r & -> & Hr).
    apply normalize_bounds; [|done]. split; [by apply Hmin_le|by apply Hmax_le].
Qed.

(** X9.  In every grid the conversion returns, the only cell-data array is
    the one named Region; it has one value per element of the converted
    block, and each value lies between 0 and 1. *)
Theorem region_values_in_unit_interval {FA : FloatArith} (m : gmshModel)
    (g : vtkUnstructuredGrid) :
  gmsh2VTU m = Ok g →
  ∃ nr elemType types elemTags tags nodes,
    getElements m 2%Z = (elemType :: types, elemTags :: tags, nodes)
    ∧ CellData g = [("Region"%string, nr)]
    ∧ length nr = length elemTags
    ∧ ∀ v, v ∈ nr → (0 ≤ v ≤ 1)%Qc.
Proof.
  intros Hrun.
  apply gmsh2VTU_Ok in Hrun as (nodeTags & coords & pcoords & elemType & types
    & elemTags & tags & elemNodeTags & nodes & ordered & pgm & nr
    & _ & He & _ & _ & _ & _ & Hnorm & Hdata).
  exists nr, elemType, types, elemTags, tags, (elemNodeTags :: nodes).
  split_and!; [done|done| |].
  - apply normalizedRegions_length in Hnorm. by rewrite length_fmap in Hnorm.
  - intros v Hv. by apply (normalizedRegions_unit_interval _ _ _ Hnorm).
Qed.

Lemma normalize_antitone {FA : FloatArith} (mn mx r1 r2 : Z) :
  (mn < mx)%Z → (r1 ≤ r2)%Z →
  (normalize mn mx r2 ≤ normalize mn mx r1)%Qc.
Proof.
  intros Hlt Hle. unfold normalize, float_sub, true_div.
  apply round_mono.
  apply (Qcplus_le_mono_l _ _ (-1)%Qc).
  replace (-1 + (1 - round (Qc_of_Z (r2 - mn) / Qc_of_Z (mx - mn))))%Qc
    with (- round (Qc_of_Z (r2 - mn) / Qc_of_Z (mx - mn)))%Qc by ring.
  replace (-1 + (1 - round (Qc_of_Z (r1 - mn) / Qc_of_Z (mx - mn))))%Qc
    with (- round (Qc_of_Z (r1 - mn) / Qc_of_Z (mx - mn)))%Qc by ring.
  apply Qcopp_le_compat, round_mono. unfold Qcdiv.
  apply Qcmult_le_mono_nonneg_r.
  - apply Qclt_le_weak, Qcinv_pos, Qc_of_Z_pos. lia.
  - assert (r1 - mn ≤ r2 - mn)%Z as Hsub by lia. by apply Z2Qc_inj_le in Hsub.
Qed.

(** X10.  The normalisation reverses the order of the raw region values: of
    two elements, the one with the smaller raw value never gets the smaller
    normalised value. *)
Theorem normalization_reverses_order {FA : FloatArith} (regionValues : list Z)
    (nr : list Qc) (i j : nat) (ri rj : Z) (vi vj : Qc) :
  normalizedRegions regionValues = Ok nr →
  regionValues !! i = Some ri → regionValues !! j = Some rj →
  nr !! i = Some vi → nr !! j = Some vj →
  (ri ≤ rj)%Z → (vj ≤ vi)%Qc.
Proof.
  unfold normalizedRegions. intros Hrun Hi Hj Hvi Hvj Hle.
  inv_bind_as Hrun mn Hmin. inv_bind_as Hrun mx Hmax.
  destruct (py_min_spec _ _ Hmin) as [Hmin_in Hmin_le].
  destruct (py_max_spec _ _ Hmax) as [Hmax_in Hmax_le].
  case_decide as Heq; injection Hrun as <-.
  - apply lookup_replicate in Hvi as [-> _].
    apply lookup_replicate in Hvj as [-> _]. apply Qcle_refl.
  - rewrite list_lookup_fmap, Hi in Hvi. rewrite list_lookup_fmap, Hj in Hvj.
    injection Hvi as <-. injection Hvj as <-.
    apply normalize_antitone; [|done].
    specialize (Hmin_le mx Hmax_in). lia.
Qed.

(** ** Only the first per-type block is read *)

Lemma firstBlock_heads (els : elements) :
  py_index (firstBlock els).1.1 0 = py_index els.1.1 0
  ∧ py_index (firstBlock els).1.2 0 = py_index els.1.2 0
  ∧ py_index (firstBlock els).2 0 = py_index els.2 0.
Proof.
  destruct els as [[types tags] nodes]. simpl.
  by destruct types, tags, nodes.
Qed.

Lemma physicalGroupMap_firstBlocksOnly (m : gmshModel) :
  physicalGroupMap (firstBlocksOnly m) = physicalGroupMap m.
Proof.
  unfold physicalGroupMap. simpl.
  generalize (∅ : gmap Z Z). induction (getPhysicalGroups m 2%Z) as [|[dim tag] gs IH];
    intros pgm; [done|]. simpl.
  assert (∀ ents s, foldM (assignEntity (firstBlocksOnly m) dim tag) s ents
                    = foldM (assignEntity m dim tag) s ents) as Hents.
  { induction ents as [|ent ents IHe]; intros s; [done|]. simpl.
    assert (assignEntity (firstBlocksOnly m) dim tag s ent
            = assignEntity m dim tag s ent) as ->.
    { unfold assignEntity. simpl.
      destruct (getElementsOfEntity m dim ent) as [[types tags] nodes]. simpl.
      by destruct tags. }
    destruct (assignEntity m dim tag s ent); simpl; [apply IHe|done]. }
  rewrite Hents. destruct (foldM (assignEntity m dim tag) pgm _); simpl; [apply IH|done].
Qed.

(** X11.  The conversion reads nothing but the first per-type block of each
    answer of [getElements]: dropping all later blocks, of the mesh and of
    every entity, leaves the result unchanged, be it a grid or an exception. *)
Theorem later_blocks_are_ignored {FA : FloatArith} (m : gmshModel) :
  gmsh2VTU (firstBlocksOnly m) = gmsh2VTU m.
Proof.
  unfold gmsh2VTU. rewrite physicalGroupMap_firstBlocksOnly. simpl.
  destruct (getNodes m) as [[nodeTags coords] pcoords].
  destruct (getElements m 2%Z) as [[types tags] nodes]. simpl.
  destruct types as [|elemType types]; [done|].
  destruct tags as [|elemTags tags]; [done|].
  by destruct nodes as [|elemNodeTags nodes].
Qed.

(** * Properties of convert_favorites.py *)

(** ** String replacement *)

Lemma replace_from_skip_all (old new s : pystr) (skip : nat) :
  length s ≤ skip → replace_from skip old new s = [].
Proof.
  revert skip. induction s as [|c s IH]; intros skip Hlen; [done|].
  simpl in *. destruct skip as [|k]; [lia|]. apply IH. lia.
Qed.

(** Replacing one character by another is a character-wise map. *)
Lemma py_replace_char (s : pystr) (c d : ascii) :
  py_replace s [c] [d] = (λ x, if decide (x = c) then d else x) <$> s.
Proof.
  unfold py_replace. induction s as [|x s IH]; [done|].
  cbn [replace_from length Nat.sub]. rewrite IH.
  destruct (decide (x = c)) as [->|Hne].
  - rewrite bool_decide_eq_true_2; [|by apply prefix_cons, prefix_nil].
    rewrite fmap_cons. by rewrite decide_True.
  - rewrite bool_decide_eq_false_2.
    + rewrite fmap_cons. by rewrite decide_False.
    + intros [k Hk]. simpl in Hk. congruence.
Qed.

Lemma replace_from_notin (old new s : pystr) (skip : nat) (c : ascii) :
  c ∉ s → c ∉ new → c ∉ replace_from skip old new s.
Proof.
  intros Hs Hnew. revert skip. induction s as [|x s IH]; intros skip.
  - apply not_elem_of_nil.
  - apply not_elem_of_cons in Hs as [Hne Hs]. simpl.
    destruct skip as [|k]; [|by apply IH].
    case_bool_decide.
    + rewrite elem_of_app. intros [?|?]; [done|]. by eapply IH.
    + rewrite elem_of_cons. intros [?|?]; [done|]. by eapply IH.
Qed.

Lemma flatName_fmap (p : pystr) : flatName p = flatChar <$> p.
Proof.
  unfold flatName. change (str "/") with ["/"%char].
  change (str "\") with ["\"%char]. change (str "_") with ["_"%char].
  rewrite !py_replace_char, <- list_fmap_compose.
  apply list_fmap_ext. intros _ x _. unfold flatChar. simpl.
  repeat case_decide; congruence.
Qed.

Lemma flatName_no_separator (p : pystr) :
  ("/"%char ∉ flatName p) ∧ ("\"%char ∉ flatName p).
Proof.
  rewrite flatName_fmap. split.
  - intros (x & Hx & _)%list_elem_of_fmap. unfold flatChar in Hx.
    repeat case_decide; congruence.
  - intros (x & Hx & _)%list_elem_of_fmap. unfold flatChar in Hx.
    repeat case_decide; congruence.
Qed.

(** ** Output names *)

(** Decides that a character does not occur in a string literal. *)
Ltac notin_literal :=
  cbv [str String.list_ascii_of_string];
  rewrite !elem_of_cons, elem_of_nil;
  let H := fresh in
  intros H; repeat (destruct H as [H|H]; [discriminate H|]); exact H.

Lemma suffix_fmap_flatChar (suf p : pystr) :
  flatChar <$> suf = suf → suf `suffix_of` p → suf `suffix_of` flatName p.
Proof.
  intros Hfix [k ->]. rewrite flatName_fmap, fmap_app, Hfix.
  by apply suffix_app_r.
Qed.

(** A match of [".ipynb"] that starts before a final [".ipynb"] ends
    before it: no proper end of this word is a beginning of it. *)
Lemma ipynb_match_is_clear (c : ascii) (pre : pystr) :
  str ".ipynb" `prefix_of` c :: pre ++ str ".ipynb" → 5 ≤ length pre.
Proof.
  intros [k Hk]. cbv [str String.list_ascii_of_string] in Hk.
  do 5 (destruct pre as [|? pre]; [simpl in Hk; simplify_eq|]).
  simpl. lia.
Qed.

Lemma replace_ipynb_suffix (pre : pystr) :
  ∀ skip, skip ≤ length pre →
  ∃ out, replace_from skip (str ".ipynb") (str ".txt") (pre ++ str ".ipynb")
         = out ++ str ".txt".
Proof.
  induction pre as [|c pre IH]; intros skip Hskip.
  - exists []. simpl in Hskip. by replace skip with 0 by lia.
  - cbn [app replace_from]. destruct skip as [|k].
    + case_bool_decide as Hp.
      * destruct (IH (length (str ".ipynb") - 1)) as [out ->].
        { apply ipynb_match_is_clear in Hp. simpl. lia. }
        exists (str ".txt" ++ out). by rewrite <- app_assoc.
      * destruct (IH 0) as [out ->]; [lia|]. by exists (c :: out).
    + apply IH. simpl in Hskip. lia.
Qed.

(** X13.  The output name of a notebook ends with [.txt]: when the path of a
    favourite ends with [.ipynb], the file is converted under a name that
    ends with [.txt] and contains neither [/] nor [\]. *)
Theorem notebook_output_name (file_path : pystr) :
  str ".ipynb" `suffix_of` file_path →
  ∃ name, favoriteFileAction file_path (str ".ipynb") = ConvertNotebook name
    ∧ directoryFileAction file_path (str ".ipynb") = ConvertNotebook name
    ∧ str ".txt" `suffix_of` name
    ∧ ("/"%char ∉ name) ∧ ("\"%char ∉ name).
Proof.
  intros Hsuf. exists (notebookName (flatName file_path)).
  unfold favoriteFileAction, directoryFileAction. rewrite !decide_True by done.
  split_and!; [done|done| | |].
  - apply (suffix_fmap_flatChar (str ".ipynb")) in Hsuf as [pre ->]; [|done].
    destruct (replace_ipynb_suffix pre 0) as [out Hout]; [lia|].
    unfold notebookName, py_replace. rewrite Hout. by apply suffix_app_r.
  - apply replace_from_notin; [apply flatName_no_separator|].
    notin_literal.
  - apply replace_from_notin; [apply flatName_no_separator|].
    notin_literal.
Qed.

(** X14.  A file that is copied gets an output name that ends with [.txt]:
    a flattened name that already ends with [.txt] is kept as it is, so the
    extension is never doubled, and any other name gets [.txt] appended; the
    name contains neither [/] nor [\]. *)
Theorem text_output_name (file_path : pystr) :
  str ".txt" `suffix_of` textName (flatName file_path)
  ∧ (str ".txt" `suffix_of` file_path →
       textName (flatName file_path) = flatName file_path)
  ∧ (¬ str ".txt" `suffix_of` flatName file_path →
       textName (flatName file_path) = flatName file_path ++ str ".txt")
  ∧ ("/"%char ∉ textName (flatName file_path))
  ∧ ("\"%char ∉ textName (flatName file_path)).
Proof.
  unfold textName, py_endswith.
  assert (∀ c, c ∉ flatName file_path → c ∉ str ".txt" →
               c ∉ (if bool_decide (str ".txt" `suffix_of` flatName file_path)
                    then flatName file_path else flatName file_path ++ str ".txt"))
    as Hnotin.
  { intros c Hc Ht. case_bool_decide; [done|].
    rewrite elem_of_app. tauto. }
  split_and!.
  - case_bool_decide; [done|]. by apply suffix_app_r.
  - intros Hsuf. apply (suffix_fmap_flatChar (str ".txt")) in Hsuf; [|done].
    by rewrite bool_decide_eq_true_2.
  - intros Hno. by rewrite bool_decide_eq_false_2.
  - apply Hnotin; [apply flatName_no_separator|].
    notin_literal.
  - apply Hnotin; [apply flatName_no_separator|].
    notin_literal.
Qed.

(** X15.  Flattening a path is character-wise, so different paths can get
    the same output name: a [/] or a [\] anywhere in a path and a [_] in its
    place give the same flattened name. *)
Theorem flat_names_collide (a b : pystr) :
  length (flatName (a ++ str "/" ++ b)) = length (a ++ str "/" ++ b)
  ∧ flatName (a ++ str "/" ++ b) = flatName (a ++ str "_" ++ b)
  ∧ flatName (a ++ str "\" ++ b) = flatName (a ++ str "_" ++ b)
  ∧ a ++ str "/" ++ b ≠ a ++ str "_" ++ b.
Proof.
  rewrite !flatName_fmap. split_and!.
  - apply length_fmap.
  - by rewrite !fmap_app.
  - by rewrite !fmap_app.
  - intros Heq. apply app_inv_head in Heq. discriminate Heq.
Qed.


(** ** The text of a converted notebook and of a copied file *)

Lemma cellsText_app (start : nat) (l1 l2 : list nbCell) :
  cellsText start (l1 ++ l2)
  = cellsText start l1 ++ cellsText (start + length l1) l2.
Proof.
  revert start. induction l1 as [|c l1 IH]; intros start; simpl.
  - by rewrite Nat.add_0_r.
  - rewrite IH, <- app_assoc. do 3 f_equal. lia.
Qed.

Lemma cellsText_raw (start : nat) (cells : list nbCell) :
  Forall (λ c, ∃ source, c = Raw source) cells → cellsText start cells = [].
Proof.
  intros Hraw. revert start. induction Hraw as [|c cells [source ->] _ IH];
    intros start; [done|].
  simpl. apply IH.
Qed.

(** X16.  The number in the heading of a cell is its position among all the
    cells of the notebook, counted from 1: the text of a notebook is the
    text of the cells before, then the text of the cell under that number,
    then the text of the cells after under the following numbers.  Cells
    that are neither markdown nor code add no text but are counted. *)
Theorem cell_numbers_count_every_cell (notebook_path : pystr)
    (before after : list nbCell) (cell : nbCell) :
  notebookText notebook_path (before ++ cell :: after)
  = notebookText notebook_path before
    ++ cellText (S (length before)) cell
    ++ cellsText (S (S (length before))) after
  ∧ (Forall (λ c, ∃ source, c = Raw source) before →
       notebookText notebook_path (before ++ cell :: after)
       = headerText (str "# Converted from: ") notebook_path
         ++ cellText (S (length before)) cell
         ++ cellsText (S (S (length before))) after).
Proof.
  assert (notebookText notebook_path (before ++ cell :: after)
          = notebookText notebook_path before
            ++ cellText (S (length before)) cell
            ++ cellsText (S (S (length before))) after) as Hsplit.
  { unfold notebookText. rewrite cellsText_app. simpl.
    by rewrite <- !app_assoc. }
  split; [exact Hsplit|].
  intros Hraw. rewrite Hsplit. unfold notebookText.
  by rewrite (cellsText_raw _ _ Hraw), app_nil_r.
Qed.

(** X17.  A code cell whose outputs are all display data, or results without
    a plain-text form, still gets the heading of the output section, with
    nothing under it; a code cell without outputs gets no such section. *)
Theorem unprintable_outputs_leave_empty_section (i : nat) (source : pystr)
    (outputs : list nbOutput) :
  outputs ≠ [] →
  Forall (λ o, (∃ data, o = DisplayData data)
               ∨ (∃ data, o = ExecuteResult data ∧ data !! "text/plain"%string = None))
         outputs →
  cellText i (Code source outputs)
  = cellText i (Code source []) ++ str "### Output:" ++ nl ++ nl.
Proof.
  intros Hne Hall.
  assert (concat (outputText <$> outputs) = []) as Hnone.
  { clear Hne. induction Hall as [|o outputs Ho _ IH]; [done|].
    rewrite fmap_cons. simpl. rewrite IH, app_nil_r.
    destruct Ho as [[data ->]|(data & -> & Hdata)]; [done|].
    simpl. by rewrite Hdata. }
  destruct outputs as [|o outputs]; [done|].
  unfold cellText. rewrite Hnone, <- !app_assoc. reflexivity.
Qed.

(** X18.  A copied file is the source text after a header of
    [78 + len(source_path)] characters: dropping that many characters from
    the written text gives the content back, unchanged. *)
Theorem copied_text_round_trip (source_path content : pystr) :
  length (copiedText source_path content)
  = 78 + length source_path + length content
  ∧ drop (78 + length source_path) (copiedText source_path content) = content
  ∧ take 15 (copiedText source_path content) = str "# Copied from: ".
Proof.
  unfold copiedText, headerText.
  assert (length (str "# Copied from: " ++ source_path ++ nl
                  ++ replicate 60 "="%char ++ nl ++ nl)
          = 78 + length source_path) as Hlen.
  { rewrite !length_app, length_replicate. simpl. lia. }
  split_and!.
  - rewrite length_app, Hlen. lia.
  - rewrite <- Hlen. by rewrite drop_app_length.
  - reflexivity.
Qed.

(** ** Elements of later per-type blocks *)

(** What the conversion reaches is owned in the sense of the spec; the
    converse fails for the elements of later blocks. *)
Lemma reachable_belongsToGroup (m : gmshModel) (group : Z * Z) (e : Z) :
  reachable m group e → belongsToGroup m group e.
Proof.
  intros (ent & Hent & blk & Hblk & He). exists ent, blk.
  split_and!; [done| |done]. apply list_elem_of_lookup. eauto.
Qed.

(** C5, as stated, fails: in [laterBlockDanglingMesh] the quadrilateral of
    the second per-type block refers to node 99, which is not among the
    supplied nodes, and yet the conversion raises nothing: it returns the
    grid of the first block, one triangle on the points 0 1 2. *)
Lemma missing_node_in_later_block_is_not_detected :
  (getElements laterBlockDanglingMesh 2%Z).2 !! 1 = Some [10; 12; 13; 99]%Z
  ∧ (99%Z ∉ (getNodes laterBlockDanglingMesh).1.1)
  ∧ (¬ ∃ (FA : FloatArith) (e : exn),
         gmsh2VTU laterBlockDanglingMesh = Raise e)
  ∧ ∃ g, @gmsh2VTU exactArith laterBlockDanglingMesh = Ok g
         ∧ Cells g = [(VTK_TRIANGLE, [0; 1; 2])].
Proof.
  split_and!.
  - reflexivity.
  - simpl. rewrite !elem_of_cons, elem_of_nil.
    intros H. repeat (destruct H as [H|H]; [discriminate H|]). exact H.
  - intros (FA & e & Hrun). vm_compute in Hrun. discriminate Hrun.
  - destruct (@gmsh2VTU exactArith laterBlockDanglingMesh) as [g|e] eqn:Hrun;
      [|vm_compute in Hrun; discriminate Hrun].
    exists g. split; [reflexivity|].
    vm_compute in Hrun. injection Hrun as <-. reflexivity.
Qed.

(** C7, as stated, fails: in [twoBlockEntityMesh] the quadrilateral,
    element 1, belongs to the surface that both physical groups 7 and 4
    own, but it is listed in the second per-type block of that surface; the
    region map gets no entry for it, so its tag is not the tag 4 of the
    group processed last (while the triangle, element 2, does get 4). *)
Lemma later_block_element_gets_no_tag :
  getPhysicalGroups twoBlockEntityMesh 2%Z = [(2, 7); (2, 4)]%Z
  ∧ belongsToGroup twoBlockEntityMesh (2, 7)%Z 1%Z
  ∧ belongsToGroup twoBlockEntityMesh (2, 4)%Z 1%Z
  ∧ ∃ pgm, physicalGroupMap twoBlockEntityMesh = Ok pgm
           ∧ pgm !! 1%Z ≠ Some 4%Z
           ∧ pgm !! 1%Z = None
           ∧ pgm !! 2%Z = Some 4%Z.
Proof.
  assert (∀ tag, belongsToGroup twoBlockEntityMesh (2, tag)%Z 1%Z) as Hown.
  { intros tag. exists 1%Z, [1%Z]. simpl. split_and!.
    - apply list_elem_of_here.
    - apply list_elem_of_further, list_elem_of_here.
    - apply list_elem_of_here. }
  split_and!; [reflexivity|apply Hown|apply Hown|].
  destruct (physicalGroupMap twoBlockEntityMesh) as [pgm|e] eqn:Hrun;
    [|vm_compute in Hrun; discriminate Hrun].
  exists pgm. split; [reflexivity|].
  vm_compute in Hrun. injection Hrun as <-.
  split_and!; [discriminate|reflexivity|reflexivity].
Qed.

(** ** The theorems at work, in exact arithmetic *)

#[local] Existing Instance exactArith.

(** In exact arithmetic the normalised value is the rational number
    [1 - (region - min) / (max - min)] itself. *)
Lemma normalize_exact (min_region max_region region : Z) :
  normalize min_region max_region region
  = (1 - Qc_of_Z (region - min_region) / Qc_of_Z (max_region - min_region))%Qc.
Proof. reflexivity. Qed.


Lemma degenerate_collapse_witness :
  py_min [-1; -1; -1]%Z = Ok (-1)%Z ∧ py_max [-1; -1; -1]%Z = Ok (-1)%Z
  ∧ normalizedRegions [-1; -1; -1]%Z = Ok [1; 1; 1]%Qc.
Proof.
  assert (py_min [-1; -1; -1]%Z = Ok (-1)%Z) as Hmin by reflexivity.
  assert (py_max [-1; -1; -1]%Z = Ok (-1)%Z) as Hmax by reflexivity.
  destruct (degenerate_collapse [-1; -1; -1]%Z (-1) (-1) Hmin Hmax) as [_ Hall].
  split_and!; [exact Hmin | exact Hmax | by apply Hall].
Defined.

Lemma no_physical_groups_witness :
  getPhysicalGroups (twoTriangles []) 2%Z = []
  ∧ ∃ g, gmsh2VTU (twoTriangles []) = Ok g
         ∧ Cells g = [(VTK_TRIANGLE, [0; 1; 2]); (VTK_TRIANGLE, [0; 2; 3])]
         ∧ CellData g = [("Region"%string, [1; 1]%Qc)].
Proof.
  assert (getPhysicalGroups (twoTriangles []) 2%Z = []) as Hgroups by reflexivity.
  destruct (gmsh2VTU (twoTriangles [])) as [g|e] eqn:Hrun;
    [|vm_compute in Hrun; discriminate Hrun].
  destruct (no_physical_groups (twoTriangles []) g Hgroups Hrun)
    as (_ & elemType & types & elemTags & tags & nodes & ordered & He & _ & Hdata).
  injection He as <- <- <- <- <-.
  split; [exact Hgroups|]. exists g. split_and!; [reflexivity| |exact Hdata].
  vm_compute in Hrun. injection Hrun as <-. reflexivity.
Defined.

Lemma empty_block_raises_witness :
  getElements emptyBlockMesh 2%Z = ([2%Z], [[]], [[]])
  ∧ gmsh2VTU emptyBlockMesh = Raise ValueError.
Proof.
  assert (getElements emptyBlockMesh 2%Z = ([2%Z], [] :: [], [[]])) as He
    by reflexivity.
  destruct (empty_block_raises emptyBlockMesh [2%Z] [] [[]] He) as [_ Hval].
  split; [exact He|].
  eapply (Hval [10; 11; 12; 13]%Z squareCoords [] 2%Z [] [] []); reflexivity.
Defined.

Lemma missing_node_aborts_witness :
  getNodes danglingMesh = ([10; 11; 12; 13]%Z, squareCoords, [])
  ∧ getElements danglingMesh 2%Z = ([2%Z], [[1%Z]], [[10; 11; 14]%Z])
  ∧ gmsh2VTU danglingMesh = Raise (KeyError 14).
Proof.
  assert (getNodes danglingMesh = ([10; 11; 12; 13]%Z, squareCoords, [])) as Hn
    by reflexivity.
  assert (getElements danglingMesh 2%Z
          = (2%Z :: [], [1%Z] :: [], [10; 11; 14]%Z :: [])) as He by reflexivity.
  assert (14%Z ∈ [10; 11; 14]%Z) as Hin
    by (apply (bool_decide_unpack _); vm_compute; exact I).
  assert (14%Z ∉ [10; 11; 12; 13]%Z) as Hnin
    by (apply (bool_decide_unpack _); vm_compute; exact I).
  destruct (missing_node_aborts danglingMesh _ _ _ _ _ _ _ _ _ 14%Z Hn He Hin Hnin)
    as (t' & _ & _ & Hrun).
  split_and!; [exact Hn | exact He |].
  pose proof Hrun as Hval. vm_compute in Hval. injection Hval as <-. exact Hrun.
Defined.

(** ** Further instances, on the example meshes and on example paths *)

Lemma cells_translate_connectivity_witness :
  ∃ g, gmsh2VTU (twoTriangles []) = Ok g
       ∧ length (Cells g) = 2
       ∧ Cells g !! 1 = Some (VTK_TRIANGLE, [0; 2; 3]).
Proof.
  destruct (gmsh2VTU (twoTriangles [])) as [g|e] eqn:Hrun;
    [|vm_compute in Hrun; discriminate Hrun].
  destruct (cells_translate_connectivity (twoTriangles []) g
              [10; 11; 12; 13]%Z squareCoords [] 2%Z [] [1; 2]%Z []
              [10; 11; 12; 10; 12; 13]%Z [] VTK_TRIANGLE 3)
    as [Hlen _]; [reflexivity..|exact Hrun|].
  exists g. split_and!; [reflexivity|exact Hlen|].
  vm_compute in Hrun. injection Hrun as <-. reflexivity.
Defined.

Lemma wellformed_mesh_converts_witness :
  ∃ g, gmsh2VTU (twoTriangles [(2, 7); (2, 4)]%Z) = Ok g
       ∧ length (Points g) = 4 ∧ length (Cells g) = 2.
Proof.
  set (m := twoTriangles [(2, 7); (2, 4)]%Z).
  destruct (physicalGroupMap m) as [pgm|e] eqn:Hpgm;
    [|vm_compute in Hpgm; discriminate Hpgm].
  destruct (wellformed_mesh_converts m
              [10; 11; 12; 13]%Z squareCoords [] 2%Z [] [1; 2]%Z []
              [10; 11; 12; 10; 12; 13]%Z [] VTK_TRIANGLE 3 pgm)
    as (g & nr & Hrun & Hpts & Hcells & _).
  - reflexivity.
  - reflexivity.
  - reflexivity.
  - intros t Ht. repeat (apply elem_of_cons in Ht as [->|Ht];
      [apply (bool_decide_unpack _); vm_compute; exact I|]).
    by apply elem_of_nil in Ht.
  - simpl. lia.
  - simpl. lia.
  - exact Hpgm.
  - discriminate.
  - exists g. split_and!; [exact Hrun|exact Hpts|exact Hcells].
Defined.

Lemma short_connectivity_raises_witness :
  length [10; 11; 12; 13]%Z < 4 * length [1; 2]%Z
  ∧ gmsh2VTU shortQuadMesh = Raise IndexError.
Proof.
  split; [simpl; lia|].
  apply (short_connectivity_raises shortQuadMesh
           [10; 11; 12; 13]%Z squareCoords [] 3%Z [] [1; 2]%Z []
           [10; 11; 12; 13]%Z [] VTK_QUAD 4 ∅).
  - reflexivity.
  - reflexivity.
  - reflexivity.
  - intros t Ht. exact Ht.
  - simpl. lia.
  - simpl. lia.
  - reflexivity.
Defined.

Lemma cell_ids_are_point_indices_witness :
  ∃ g, gmsh2VTU (twoTriangles []) = Ok g
       ∧ (VTK_TRIANGLE, [0; 2; 3]) ∈ Cells g
       ∧ 3 < length (Points g).
Proof.
  destruct (gmsh2VTU (twoTriangles [])) as [g|e] eqn:Hrun;
    [|vm_compute in Hrun; discriminate Hrun].
  assert ((VTK_TRIANGLE, [0; 2; 3]) ∈ Cells g) as Hcell.
  { pose proof Hrun as Hval. vm_compute in Hval. injection Hval as <-.
    apply list_elem_of_further, list_elem_of_here. }
  assert (3 ∈ [0; 2; 3]) as Hid
    by (apply (bool_decide_unpack _); vm_compute; exact I).
  exists g. split_and!; [reflexivity|exact Hcell|].
  exact (cell_ids_are_point_indices (twoTriangles []) g VTK_TRIANGLE [0; 2; 3] 3
           Hrun Hcell Hid).
Defined.

Lemma duplicate_tag_last_position_witness :
  10%Z ∈ [10; 11; 10]%Z ∧ nodeTagToIndex [10; 11; 10]%Z !! 10%Z = Some 2.
Proof.
  assert (10%Z ∈ [10; 11; 10]%Z) as Hin by apply list_elem_of_here.
  split; [exact Hin|].
  destruct (duplicate_tag_last_position [10; 11; 10]%Z 10%Z Hin)
    as (i & Hi & _ & Hlast).
  assert (2 ≤ i) as Hge by (by apply Hlast).
  assert (i < 3) as Hlt by (pose proof Hi as Hval; vm_compute in Hval;
                            injection Hval as <-; lia).
  by replace 2 with i by lia.
Defined.

Lemma region_map_holds_reachable_witness :
  ∃ pgm, physicalGroupMap (twoTriangles [(2, 7); (2, 4)]%Z) = Ok pgm
         ∧ is_Some (pgm !! 2%Z)
         ∧ rawRegion pgm 3%Z = (-1)%Z.
Proof.
  set (m := twoTriangles [(2, 7); (2, 4)]%Z).
  destruct (physicalGroupMap m) as [pgm|e] eqn:Hpgm;
    [|vm_compute in Hpgm; discriminate Hpgm].
  exists pgm. split; [reflexivity|].
  destruct (region_map_holds_reachable m pgm 2%Z Hpgm) as (Hiff & _ & _).
  destruct (region_map_holds_reachable m pgm 3%Z Hpgm) as (_ & _ & Hnone).
  split.
  - apply Hiff. exists (2, 7)%Z. split; [apply list_elem_of_here|].
    apply (bool_decide_unpack _). vm_compute. exact I.
  - apply Hnone. intros g _. apply (bool_decide_unpack _). vm_compute. exact I.
Defined.

Lemma region_values_in_unit_interval_witness :
  ∃ g nr, gmsh2VTU (twoTriangles []) = Ok g
          ∧ CellData g = [("Region"%string, nr)] ∧ length nr = 2.
Proof.
  destruct (gmsh2VTU (twoTriangles [])) as [g|e] eqn:Hrun;
    [|vm_compute in Hrun; discriminate Hrun].
  destruct (region_values_in_unit_interval (twoTriangles []) g Hrun)
    as (nr & elemType & types & elemTags & tags & nodes & He & Hdata & Hlen & _).
  injection He as <- <- <- <- <-.
  exists g, nr. split_and!; [reflexivity|exact Hdata|exact Hlen].
Defined.

Lemma normalization_reverses_order_witness :
  normalizedRegions [5; 2; 3]%Z
    = Ok [0; 1; 1 - Qc_of_Z 1 / Qc_of_Z 3]%Qc
  ∧ (1 - Qc_of_Z 1 / Qc_of_Z 3 ≤ 1)%Qc.
Proof.
  assert (normalizedRegions [5; 2; 3]%Z
          = Ok [0; 1; 1 - Qc_of_Z 1 / Qc_of_Z 3]%Qc) as Hrun by reflexivity.
  split; [exact Hrun|].
  apply (normalization_reverses_order [5; 2; 3]%Z _ 1 2 2%Z 3%Z _ _ Hrun);
    [reflexivity..|lia].
Defined.

Lemma notebook_output_name_witness :
  str ".ipynb" `suffix_of` str "my.ipynb_nb/x.ipynb"
  ∧ favoriteFileAction (str "my.ipynb_nb/x.ipynb") (str ".ipynb")
    = ConvertNotebook (str "my.txt_nb_x.txt").
Proof.
  assert (str ".ipynb" `suffix_of` str "my.ipynb_nb/x.ipynb") as Hsuf
    by (by exists (str "my.ipynb_nb/x")).
  split; [exact Hsuf|].
  destruct (notebook_output_name (str "my.ipynb_nb/x.ipynb") Hsuf)
    as (name & Hname & _).
  rewrite Hname. vm_compute in Hname. by injection Hname as <-.
Defined.

Lemma unprintable_outputs_leave_empty_section_witness :
  cellText 1 (Code (str "plot()") [DisplayData ∅])
  = cellText 1 (Code (str "plot()") []) ++ str "### Output:" ++ nl ++ nl.
Proof.
  apply unprintable_outputs_leave_empty_section; [discriminate|].
  apply Forall_cons. split; [|apply Forall_nil_2]. left. by exists ∅.
Defined.

Lemma no_block_raises_witness :
  getElements emptyMesh 2%Z = ([], [], [])
  ∧ gmsh2VTU emptyMesh = Raise IndexError.
Proof.
  assert (getElements emptyMesh 2%Z = ([], [], [])) as He by reflexivity.
  split; [exact He|]. exact (no_block_raises emptyMesh [] [] He).
Defined.

Lemma unsupported_type_returns_grid_witness :
  ∃ g nr, gmsh2VTU secondOrderMesh = Ok g ∧ Cells g = []
          ∧ CellData g = [("Region"%string, nr)] ∧ length nr = 1.
Proof.
  destruct (physicalGroupMap secondOrderMesh) as [pgm|e] eqn:Hpgm;
    [|vm_compute in Hpgm; discriminate Hpgm].
  apply (unsupported_type_returns_grid secondOrderMesh
           [1; 2; 3; 4; 5; 6]%Z
           [0; 0; 0;  2; 0; 0;  0; 2; 0;  1; 0; 0;  1; 1; 0;  0; 1; 0]%Qc []
           9%Z [] [1%Z] [] [1; 2; 3; 4; 5; 6]%Z [] pgm).
  - reflexivity.
  - reflexivity.
  - lia.
  - lia.
  - intros t Ht. exact Ht.
  - simpl. lia.
  - exact Hpgm.
  - discriminate.
Defined.
